(** * Exact diagonalization of the transverse-field Ising ring (Example.ipynb)

    A shallow embedding of the notebook's bit helpers, of the momentum-sector
    basis construction [BuildBasisNk], of the Hamiltonian action [ActingH]
    and of the sparse sector-matrix builder [BuildHNk].

    Python integers that hold spin configurations are [Z]; chain lengths,
    momenta, loop indices and list positions are [nat].  Python's
    [list.index] and [min] raise on failure, so they return [option] here,
    and every function that calls them is in the option monad.  Real
    numbers ([J], [g], amplitudes) are Stdlib reals and the complex numbers
    produced by [np.exp(1j * theta)] are pairs of reals, i.e. the matrix is
    computed in exact arithmetic. *)

From Stdlib Require Import Ascii String.
From Stdlib Require Import ZArith Arith List Bool Lia Permutation Sorted.
From Stdlib Require Import Reals Lra.
Import ListNotations.

Notation "'let*' x ':=' e 'in' f" :=
  (match e with Some x => f | None => None end)
  (at level 200, x ident, e at level 100, f at level 200).

(** ** Complex numbers *)

Record C := mkC { Re : R; Im : R }.

Definition C0 : C := mkC 0 0.
Definition Cadd (z w : C) : C := mkC (Re z + Re w) (Im z + Im w).
Definition Cconj (z : C) : C := mkC (Re z) (- Im z).
(** real scalar times complex number *)
Definition Cscale (r : R) (z : C) : C := mkC (r * Re z) (r * Im z).
(** [np.exp(1j * theta)] for a real [theta] *)
Definition Cexp_i (theta : R) : C := mkC (cos theta) (sin theta).

(** ** BitState *)

(** [np.binary_repr(i)]: the binary digits of [i], with a leading ['-']
    for a negative number. *)
Fixpoint pos_repr (p : positive) : string :=
  match p with
  | xH => "1"
  | xO q => (pos_repr q ++ "0")%string
  | xI q => (pos_repr q ++ "1")%string
  end.

Definition binary_repr (i : Z) : string :=
  match i with
  | Z0 => "0"
  | Zpos p => pos_repr p
  | Zneg p => ("-" ++ pos_repr p)%string
  end.

(** [str.count(c)] for a one-character [c] *)
Fixpoint count_char (c : ascii) (s : string) : nat :=
  match s with
  | EmptyString => 0
  | String x s' => (if Ascii.eqb x c then 1 else 0) + count_char c s'
  end.

Definition CountBit (i : Z) : nat := count_char "1"%char (binary_repr i).

Definition FilpBit (i : Z) (n : nat) : Z := Z.lxor i (Z.shiftl 1 (Z.of_nat n)).

Definition ReadBit (i : Z) (n : nat) : Z :=
  Z.shiftr (Z.land i (Z.shiftl 1 (Z.of_nat n))) (Z.of_nat n).

Definition PickBit (i k n : Z) : Z :=
  Z.shiftr (Z.land i (Z.shiftl (2 ^ n - 1) k)) k.

Definition RotLBit (i : Z) (L n : nat) : Z :=
  Z.shiftl (PickBit i 0 (Z.of_nat L - Z.of_nat n)) (Z.of_nat n)
  + Z.shiftr i (Z.of_nat L - Z.of_nat n).

Definition RotRBit (i : Z) (L n : nat) : Z :=
  Z.shiftl (PickBit i 0 (Z.of_nat n)) (Z.of_nat L - Z.of_nat n)
  + Z.shiftr i (Z.of_nat n).

(** ** HamiltonianAction *)

Definition ActingH (n : Z) (L : nat) (J g : R) : list (Z * R) :=
  let ising := map (fun i => (i, (i + 1) mod L)) (seq 0 L) in
  let output := map (fun i => (Z.lxor n (Z.shiftl 1 (Z.of_nat i)), (- J * g)%R))
                    (seq 0 L) in
  let diag := fold_left
                (fun diag j =>
                   if Z.eqb (ReadBit n (fst j)) (ReadBit n (snd j))
                   then (diag - J)%R else (diag + J)%R)
                ising 0%R in
  output ++ [(n, diag)].

(** ** Python list helpers *)

(** [l.index(x)] *)
Fixpoint index_of (x : Z) (l : list Z) : option nat :=
  match l with
  | [] => None
  | y :: l' => if Z.eqb y x then Some 0 else option_map S (index_of x l')
  end.

(** [min(l)] *)
Definition list_min (l : list Z) : option Z :=
  match l with
  | [] => None
  | x :: l' => Some (fold_left Z.min l' x)
  end.

(** a [for] loop whose body may raise *)
Fixpoint foldM {A B : Type} (f : A -> B -> option A) (l : list B) (a : A)
  : option A :=
  match l with
  | [] => Some a
  | x :: l' => match f a x with Some a' => foldM f l' a' | None => None end
  end.

(** [l[p] = x] for an index [p] already read successfully *)
Fixpoint list_set {A : Type} (l : list A) (p : nat) (x : A) : list A :=
  match l, p with
  | [], _ => []
  | _ :: l', 0 => x :: l'
  | y :: l', S p' => y :: list_set l' p' x
  end.

(** ** SymmetryBasis *)

(** [[RotLBit(n, L, i) for i in range(0, L + 1)]] *)
Definition Tlist (L : nat) (n : Z) : list Z :=
  map (fun i => RotLBit n L i) (seq 0 (L + 1)).

Definition BuildBasisN (L : nat) : list Z := map Z.of_nat (seq 0 (2 ^ L)).

Definition basis_step (L k : nat) (basisNk : list Z) (n : Z) : option (list Z) :=
  let Tl := Tlist L n in
  let* m := list_min Tl in
  let* r := index_of n (tl Tl) in
  let R := r + 1 in
  if Z.eqb m n && Nat.eqb ((k * R) mod L) 0
  then Some (basisNk ++ [n]) else Some basisNk.

Definition BuildBasisNk (L k : nat) : option (list Z) :=
  foldM (basis_step L k) (BuildBasisN L) [].

(** ** SectorMatrixBuilder *)

(** The local state of [BuildHNk]: the three triplet lists and [pos]. *)
Record Acc := mkAcc {
  HNk_col : list nat;
  HNk_row : list nat;
  HNk_val : list C;
  pos : list ((nat * nat) * nat)
}.

(** [pos[key]] on the dictionary, newest binding first *)
Fixpoint pos_lookup (key : nat * nat) (p : list ((nat * nat) * nat)) : option nat :=
  match p with
  | [] => None
  | (key', v) :: p' =>
      if Nat.eqb (fst key') (fst key) && Nat.eqb (snd key') (snd key)
      then Some v else pos_lookup key p'
  end.

(** [h * np.exp(1j * k * d * 2 * math.pi / L) * np.sqrt(Rn) / np.sqrt(Rm)] *)
Definition contribution (L k : nat) (h : R) (d Rn Rm : nat) : C :=
  Cscale (/ sqrt (INR Rm))
    (Cscale (sqrt (INR Rn))
       (Cscale h (Cexp_i (INR k * INR d * 2 * PI / INR L)))).

Definition accumulate (st : Acc) (a b : nat) (v : C) : option Acc :=
  match pos_lookup (a, b) (pos st) with
  | None =>
      let cols := HNk_col st ++ [a] in
      Some (mkAcc cols (HNk_row st ++ [b]) (HNk_val st ++ [v])
                  (((a, b), length cols - 1) :: pos st))
  | Some p =>
      let* x := nth_error (HNk_val st) p in
      Some (mkAcc (HNk_col st) (HNk_row st)
                  (list_set (HNk_val st) p (Cadd x v)) (pos st))
  end.

(** body of the inner loop [for (m, h) in output] *)
Definition HNk_pair (L k : nat) (basisNk : list Z) (n : Z) (b : nat)
    (st : Acc) (mh : Z * R) : option Acc :=
  let (m, h) := mh in
  let Tl := Tlist L m in
  let* m_rs := list_min Tl in
  let* rm := index_of m (tl Tl) in
  let Rm := rm + 1 in
  let* d := index_of m_rs Tl in
  let Tl' := Tlist L n in
  let* rn := index_of n (tl Tl') in
  let Rn := rn + 1 in
  if existsb (Z.eqb m_rs) basisNk then
    let* a := index_of m_rs basisNk in
    accumulate st a b (contribution L k h d Rn Rm)
  else Some st.

(** body of the outer loop [for n in basisNk] *)
Definition HNk_state (L k : nat) (J g : R) (basisNk : list Z) (st : Acc) (n : Z)
  : option Acc :=
  let* b := index_of n basisNk in
  foldM (HNk_pair L k basisNk n b) (ActingH n L J g) st.

(** the tuple [(HNk_col, HNk_row, HNk_val, len(basisNk), basisNk)] *)
Record HNk := mkHNk {
  H_col : list nat;
  H_row : list nat;
  H_val : list C;
  H_dim : nat;
  H_basis : list Z
}.

Definition BuildHNk (L k : nat) (J g : R) : option HNk :=
  let* basisNk := BuildBasisNk L k in
  let* st := foldM (HNk_state L k J g basisNk) basisNk (mkAcc [] [] [] []) in
  Some (mkHNk (HNk_col st) (HNk_row st) (HNk_val st) (length basisNk) basisNk).

(** ** The assembled sector matrix

    [coo_matrix((val, (row, col)))] sums all triplets stored at one
    position; [entry H r c] is the matrix entry at row [r], column [c]
    (row and column as the lists [HNk_row] and [HNk_col] name them). *)
Fixpoint coo_entry (rows cols : list nat) (vals : list C) (r c : nat) : C :=
  match rows, cols, vals with
  | r0 :: rows', c0 :: cols', v :: vals' =>
      Cadd (if Nat.eqb r0 r && Nat.eqb c0 c then v else C0)
           (coo_entry rows' cols' vals' r c)
  | _, _, _ => C0
  end.

Definition entry (H : HNk) (r c : nat) : C :=
  coo_entry (H_row H) (H_col H) (H_val H) r c.

(** ** Derived quantities used by the proofs *)

(** [x] is an [L]-bit spin configuration, [0 <= x < 2^L]. *)
Definition valid (L : nat) (x : Z) : Prop := (0 <= x < 2 ^ Z.of_nat L)%Z.

(** rotation by any number of steps, taken modulo [L] *)
Definition rotN (L : nat) (x : Z) (r : nat) : Z := RotLBit x L (r mod L).

(** [R] is the smallest positive number of steps that rotates [m] onto itself *)
Definition is_period (L : nat) (m : Z) (R : nat) : Prop :=
  1 <= R <= L /\ rotN L m R = m /\ (forall r, 1 <= r < R -> rotN L m r <> m).

(** The quantities the notebook computes inline, as total functions:
    [R = Tlist[1:].index(m) + 1], [m_rs = min(Tlist)], [d = Tlist.index(m_rs)]. *)
Definition period (L : nat) (m : Z) : nat :=
  match index_of m (tl (Tlist L m)) with Some r => r + 1 | None => 0 end.

Definition rep (L : nat) (m : Z) : Z :=
  match list_min (Tlist L m) with Some r => r | None => m end.

Definition dist (L : nat) (m : Z) : nat :=
  match index_of (rep L m) (Tlist L m) with Some d => d | None => 0 end.

(** the test of [BuildBasisNk] *)
Definition in_sector (L k : nat) (n : Z) : bool :=
  Z.eqb (rep L n) n && Nat.eqb ((k * period L n) mod L) 0.

(** the set bits of [x] among the positions [0 .. L-1], counted *)
Definition popL (L : nat) (x : Z) : nat :=
  length (filter (fun j => Z.testbit x (Z.of_nat j)) (seq 0 L)).

(** the number of set bits of a positive number, by recursion on its digits *)
Fixpoint pcount (p : positive) : nat :=
  match p with
  | xH => 1
  | xO q => pcount q
  | xI q => S (pcount q)
  end.

Definition zcount (x : Z) : nat :=
  match x with Z0 => 0 | Zpos p => pcount p | Zneg p => pcount p end.

(** finite sums of reals and of complex numbers *)
Definition Rsum (l : list R) : R := fold_right Rplus 0%R l.
Definition Csum (l : list C) : C := fold_right Cadd C0 l.

(** the phase angle [k * d * 2 * pi / L] of [contribution] *)
Definition theta (L k d : nat) : R := INR k * INR d * 2 * PI / INR L.

(** the number of sites [j] whose flip maps [z] onto [y] *)
Definition cnt (L : nat) (z y : Z) : R :=
  Rsum (map (fun j => if Z.eqb (FilpBit z j) y then 1%R else 0%R) (seq 0 L)).

(** the classical Ising energy of [n]: [-J] for every bond [(i, (i+1) mod L)]
    whose two spins agree, [+J] for every bond whose spins differ *)
Definition diagSum (n : Z) (L : nat) (J : R) : R :=
  Rsum (map (fun i => if Bool.eqb (Z.testbit n (Z.of_nat i))
                                  (Z.testbit n (Z.of_nat ((i + 1) mod L)))
                      then (- J)%R else J) (seq 0 L)).

(** the flip terms of [ActingH x] that land in the orbit of the
    representative [y], with the amplitude [BuildHNk] gives them *)
Definition flip_part (L k : nat) (J g : R) (x y : Z) : C :=
  Csum (map (fun i => if Z.eqb (rep L (FilpBit x i)) y
                      then contribution L k (- J * g) (dist L (FilpBit x i))
                                        (period L x) (period L (FilpBit x i))
                      else C0) (seq 0 L)).

(** the basis [BuildBasisNk] returns, as a filter of [0 .. 2^L - 1] *)
Definition sector_basis (L k : nat) : list Z := filter (in_sector L k) (BuildBasisN L).

(** the matrix entry the triplets accumulated so far add up to *)
Definition acc_entry (st : Acc) (r c : nat) : C :=
  coo_entry (HNk_row st) (HNk_col st) (HNk_val st) r c.

(** the bookkeeping of [BuildHNk]: the three triplet lists have one length,
    [pos] sends every key to a triplet stored under that key, and every
    stored triplet is the one [pos] names for its key *)
Definition acc_inv (st : Acc) : Prop :=
  length (HNk_col st) = length (HNk_val st) /\
  length (HNk_row st) = length (HNk_val st) /\
  (forall a b p, pos_lookup (a, b) (pos st) = Some p ->
     nth_error (HNk_col st) p = Some a /\ nth_error (HNk_row st) p = Some b) /\
  (forall p a b, nth_error (HNk_col st) p = Some a ->
     nth_error (HNk_row st) p = Some b -> pos_lookup (a, b) (pos st) = Some p).

(** what the pair [(m, h)] emitted from the basis state [n] at index [b]
    adds to the matrix entry at row [r], column [c] *)
Definition pair_delta (L k : nat) (basisNk : list Z) (n : Z) (b : nat)
    (mh : Z * R) (r c : nat) : C :=
  let (m, h) := mh in
  if Nat.eqb b r && Nat.ltb c (length basisNk) && Z.eqb (nth c basisNk 0%Z) (rep L m)
  then contribution L k h (dist L m) (period L n) (period L m) else C0.

(** the whole row [r] of the sector matrix, at column [c] *)
Definition row_sum (L k : nat) (J g : R) (basisNk : list Z) (r c : nat) : C :=
  let n := nth r basisNk 0%Z in
  Csum (map (fun mh => pair_delta L k basisNk n r mh r c) (ActingH n L J g)).

(** triplet positions stay inside a basis of [d] states *)
Definition acc_bounded (d : nat) (st : Acc) : Prop :=
  Forall (fun a => a < d) (HNk_col st) /\ Forall (fun b => b < d) (HNk_row st).

(** ** Task: the sector matrices assembled into one matrix *)

(** the local state of the loop of [Task] over [k]: the lists [Hx], [Hy],
    [Hn] and the running offset [count] *)
Record TaskAcc := mkTask { Hx : list nat; Hy : list nat; Hn : list C; count : nat }.

(** body of [for k in range(0, L)] *)
Definition Task_step (L : nat) (J g : R) (t : TaskAcc) (k : nat) : option TaskAcc :=
  let* H := BuildHNk L k J g in
  Some (mkTask (Hx t ++ map (fun p => p + count t) (H_col H))
               (Hy t ++ map (fun p => p + count t) (H_row H))
               (Hn t ++ H_val H) (count t + H_dim H)).

(** the lists [Task] builds for one pair [(J, g)] of [zip(J_list, g_list)]
    ([Task] has the single pair [J = g = 1]); the [coo_matrix] they are
    passed to is [Ham_entry], and the eigen-decomposition [LA.eig] that
    follows is not modelled *)
Definition Task_lists (L : nat) (J g : R) : option TaskAcc :=
  foldM (Task_step L J g) (seq 0 L) (mkTask [] [] [] 0).

(** [coo_matrix((Hn, (Hx, Hy)), shape=(count, count))] at row [x], column [y]:
    [Hx] holds the row indices, [Hy] the column indices *)
Definition Ham_entry (t : TaskAcc) (x y : nat) : C := coo_entry (Hx t) (Hy t) (Hn t) x y.

(** the [C] that [BuildHNk L k J g] returns, and [count] before step [k] *)
Definition Task_dim (L : nat) (J g : R) (k : nat) : nat :=
  match BuildHNk L k J g with Some H => H_dim H | None => 0 end.

Definition Task_offset (L : nat) (J g : R) (k : nat) : nat :=
  list_sum (map (Task_dim L J g) (seq 0 k)).

(** what the triplets of sector [k], shifted by [count], add at row [x],
    column [y] of the block (the sector's column list is [Hx]) *)
Definition Task_block (L : nat) (J g : R) (k x y : nat) : C :=
  match BuildHNk L k J g with Some H => entry H y x | None => C0 end.

(** the assembled entry after the steps [0 .. m-1] *)
Definition Task_sum (L : nat) (J g : R) (m x y : nat) : C :=
  Csum (map (fun j => if Nat.leb (Task_offset L J g j) x && Nat.leb (Task_offset L J g j) y
                      then Task_block L J g j (x - Task_offset L J g j) (y - Task_offset L J g j)
                      else C0) (seq 0 m)).

(** ** Sanity checks on small inputs *)

Example basis_4_0 : BuildBasisNk 4 0 = Some [0; 1; 3; 5; 7; 15]%Z.
Proof. vm_compute. reflexivity. Qed.
Example basis_4_1 : BuildBasisNk 4 1 = Some [1; 3; 7]%Z.
Proof. vm_compute. reflexivity. Qed.
Example basis_0 : BuildBasisNk 0 0 = None.
Proof. vm_compute. reflexivity. Qed.
Example rotl_6_1 : RotLBit 6 3 1 = 5%Z.
Proof. reflexivity. Qed.

(** * Bit-level theory of rotations *)

Open Scope Z_scope.

Lemma testbit_high (L : nat) (x j : Z) :
  valid L x -> Z.of_nat L <= j -> Z.testbit x j = false.
Proof.
  intros [H0 H1] Hj.
  rewrite <- (Z.mod_small x (2 ^ Z.of_nat L)) by lia.
  apply Z.mod_pow2_bits_high. lia.
Qed.

Lemma bits_bound (L : nat) (z : Z) :
  0 <= z -> (forall j, Z.of_nat L <= j -> Z.testbit z j = false) -> valid L z.
Proof.
  intros Hz Hb.
  assert (E : z = z mod 2 ^ Z.of_nat L).
  { apply Z.bits_inj'. intros j Hj.
    destruct (Z_lt_le_dec j (Z.of_nat L)).
    - rewrite Z.mod_pow2_bits_low by lia. reflexivity.
    - rewrite Z.mod_pow2_bits_high by lia. apply Hb; lia. }
  split; [lia|]. rewrite E. apply Z.mod_pos_bound. apply Z.pow_pos_nonneg; lia.
Qed.

Lemma state_ext (L : nat) (x y : Z) :
  valid L x -> valid L y ->
  (forall j, 0 <= j < Z.of_nat L -> Z.testbit x j = Z.testbit y j) -> x = y.
Proof.
  intros Hx Hy H. apply Z.bits_inj'. intros j Hj.
  destruct (Z_lt_le_dec j (Z.of_nat L)).
  - apply H; lia.
  - rewrite (testbit_high L x j), (testbit_high L y j); auto.
Qed.

Lemma PickBit_low (i w : Z) : 0 <= w -> PickBit i 0 w = i mod 2 ^ w.
Proof.
  intros Hw. unfold PickBit. rewrite Z.shiftl_0_r, Z.shiftr_0_r.
  rewrite <- Z.land_ones by lia. f_equal. rewrite Z.ones_equiv. lia.
Qed.

Lemma mod_below (a L : Z) : 0 < L -> - L <= a < 0 -> a mod L = a + L.
Proof. intros HL Ha. symmetry. apply Z.mod_unique_pos with (q := -1); lia. Qed.

(** Bit [j] of a left rotation by [s] is bit [(j - s) mod L] of the state. *)
Lemma RotLBit_bits (L s : nat) (x j : Z) :
  (1 <= L)%nat -> (s <= L)%nat -> valid L x -> 0 <= j ->
  Z.testbit (RotLBit x L s) j
  = (j <? Z.of_nat L) && Z.testbit x ((j - Z.of_nat s) mod Z.of_nat L).
Proof.
  intros HL Hs Hx Hj. unfold RotLBit.
  rewrite PickBit_low by lia.
  set (A := Z.shiftl (x mod 2 ^ (Z.of_nat L - Z.of_nat s)) (Z.of_nat s)).
  set (B := Z.shiftr x (Z.of_nat L - Z.of_nat s)).
  assert (HA : forall m, 0 <= m -> Z.testbit A m =
            (Z.of_nat s <=? m) && (m <? Z.of_nat L) && Z.testbit x (m - Z.of_nat s)).
  { intros m Hm. unfold A. rewrite Z.shiftl_spec by lia.
    destruct (Z_lt_le_dec m (Z.of_nat s)).
    - rewrite Z.testbit_neg_r by lia.
      replace (Z.of_nat s <=? m) with false by (symmetry; apply Z.leb_gt; lia).
      reflexivity.
    - replace (Z.of_nat s <=? m) with true by (symmetry; apply Z.leb_le; lia).
      destruct (Z_lt_le_dec m (Z.of_nat L)).
      + rewrite Z.mod_pow2_bits_low by lia.
        replace (m <? Z.of_nat L) with true by (symmetry; apply Z.ltb_lt; lia).
        reflexivity.
      + rewrite Z.mod_pow2_bits_high by lia.
        replace (m <? Z.of_nat L) with false by (symmetry; apply Z.ltb_ge; lia).
        reflexivity. }
  assert (HB : forall m, 0 <= m -> Z.testbit B m =
            (m <? Z.of_nat s) && Z.testbit x (m + (Z.of_nat L - Z.of_nat s))).
  { intros m Hm. unfold B. rewrite Z.shiftr_spec by lia.
    destruct (Z_lt_le_dec m (Z.of_nat s)).
    - replace (m <? Z.of_nat s) with true by (symmetry; apply Z.ltb_lt; lia).
      reflexivity.
    - replace (m <? Z.of_nat s) with false by (symmetry; apply Z.ltb_ge; lia).
      apply (testbit_high L); auto; lia. }
  assert (Hdis : Z.land A B = 0).
  { apply Z.bits_inj'. intros m Hm. rewrite Z.land_spec, HA, HB by lia.
    rewrite Z.bits_0.
    destruct (Z_lt_le_dec m (Z.of_nat s)).
    - replace (Z.of_nat s <=? m) with false by (symmetry; apply Z.leb_gt; lia).
      reflexivity.
    - replace (m <? Z.of_nat s) with false by (symmetry; apply Z.ltb_ge; lia).
      rewrite !andb_false_r. reflexivity. }
  rewrite Z.add_nocarry_lxor by exact Hdis.
  rewrite Z.lxor_spec, HA, HB by lia.
  destruct (Z_lt_le_dec j (Z.of_nat s)).
  - replace (Z.of_nat s <=? j) with false by (symmetry; apply Z.leb_gt; lia).
    replace (j <? Z.of_nat s) with true by (symmetry; apply Z.ltb_lt; lia).
    replace (j <? Z.of_nat L) with true by (symmetry; apply Z.ltb_lt; lia).
    rewrite mod_below by lia. simpl. f_equal. lia.
  - replace (Z.of_nat s <=? j) with true by (symmetry; apply Z.leb_le; lia).
    replace (j <? Z.of_nat s) with false by (symmetry; apply Z.ltb_ge; lia).
    rewrite xorb_false_r. simpl.
    destruct (Z_lt_le_dec j (Z.of_nat L)).
    + replace (j <? Z.of_nat L) with true by (symmetry; apply Z.ltb_lt; lia).
      rewrite Z.mod_small by lia. reflexivity.
    + replace (j <? Z.of_nat L) with false by (symmetry; apply Z.ltb_ge; lia).
      reflexivity.
Qed.

Lemma RotRBit_as_RotLBit (x : Z) (L s : nat) :
  (s <= L)%nat -> RotRBit x L s = RotLBit x L (L - s).
Proof.
  intros Hs. unfold RotRBit, RotLBit.
  replace (Z.of_nat L - Z.of_nat (L - s)) with (Z.of_nat s) by lia.
  replace (Z.of_nat (L - s)) with (Z.of_nat L - Z.of_nat s) by lia.
  reflexivity.
Qed.

Lemma FilpBit_bits (x : Z) (i : nat) (j : Z) :
  0 <= j -> Z.testbit (FilpBit x i) j = xorb (Z.testbit x j) (j =? Z.of_nat i).
Proof.
  intros Hj. unfold FilpBit. rewrite Z.lxor_spec, Z.shiftl_1_l.
  rewrite Z.pow2_bits_eqb by lia. rewrite Z.eqb_sym. reflexivity.
Qed.

Section Rotations.

Variable L : nat.
Hypothesis HL : (1 <= L)%nat.

Lemma valid_RotLBit (x : Z) (s : nat) :
  (s <= L)%nat -> valid L x -> valid L (RotLBit x L s).
Proof.
  intros Hs Hx. apply bits_bound.
  - unfold RotLBit. apply Z.add_nonneg_nonneg.
    + apply Z.shiftl_nonneg. rewrite PickBit_low by lia.
      apply Z.mod_pos_bound. apply Z.pow_pos_nonneg; lia.
    + apply Z.shiftr_nonneg. destruct Hx; lia.
  - intros j Hj. rewrite RotLBit_bits by (auto; lia).
    replace (j <? Z.of_nat L) with false by (symmetry; apply Z.ltb_ge; lia).
    reflexivity.
Qed.

Lemma valid_FilpBit (x : Z) (i : nat) :
  (i < L)%nat -> valid L x -> valid L (FilpBit x i).
Proof.
  intros Hi Hx. apply bits_bound.
  - unfold FilpBit. apply Z.lxor_nonneg. rewrite Z.shiftl_1_l.
    pose proof (Z.pow_nonneg 2 (Z.of_nat i)). destruct Hx; split; lia.
  - intros j Hj. rewrite FilpBit_bits by lia.
    rewrite (testbit_high L x j Hx Hj).
    replace (j =? Z.of_nat i) with false by (symmetry; apply Z.eqb_neq; lia).
    reflexivity.
Qed.

Lemma rotN_bits (x : Z) (r : nat) (j : Z) :
  valid L x -> 0 <= j ->
  Z.testbit (rotN L x r) j
  = (j <? Z.of_nat L) && Z.testbit x ((j - Z.of_nat r) mod Z.of_nat L).
Proof.
  intros Hx Hj. unfold rotN.
  rewrite RotLBit_bits; auto.
  - rewrite Nat2Z.inj_mod, Zminus_mod_idemp_r. reflexivity.
  - apply Nat.lt_le_incl, Nat.mod_upper_bound. lia.
Qed.

Lemma valid_rotN (x : Z) (r : nat) : valid L x -> valid L (rotN L x r).
Proof.
  intros Hx. apply valid_RotLBit; auto.
  apply Nat.lt_le_incl, Nat.mod_upper_bound. lia.
Qed.

Lemma RotLBit_rotN (x : Z) (s : nat) :
  (s <= L)%nat -> valid L x -> RotLBit x L s = rotN L x s.
Proof.
  intros Hs Hx. apply (state_ext L).
  - apply valid_RotLBit; auto.
  - apply valid_rotN; auto.
  - intros j Hj. rewrite RotLBit_bits, rotN_bits by (auto; lia). reflexivity.
Qed.

Lemma rotN_0 (x : Z) : valid L x -> rotN L x 0 = x.
Proof.
  intros Hx. apply (state_ext L); auto using valid_rotN.
  intros j Hj. rewrite rotN_bits by (auto; lia).
  replace (j <? Z.of_nat L) with true by (symmetry; apply Z.ltb_lt; lia).
  rewrite Z.sub_0_r, Z.mod_small by lia. reflexivity.
Qed.

Lemma rotN_add (x : Z) (r t : nat) :
  valid L x -> rotN L (rotN L x r) t = rotN L x (r + t).
Proof.
  intros Hx. apply (state_ext L); auto using valid_rotN.
  intros j Hj.
  assert (Hm : 0 <= (j - Z.of_nat t) mod Z.of_nat L < Z.of_nat L)
    by (apply Z.mod_pos_bound; lia).
  rewrite !rotN_bits by (auto using valid_rotN; lia).
  replace ((j - Z.of_nat t) mod Z.of_nat L <? Z.of_nat L) with true
    by (symmetry; apply Z.ltb_lt; lia).
  rewrite Zminus_mod_idemp_l. simpl.
  replace (j - Z.of_nat t - Z.of_nat r) with (j - Z.of_nat (r + t)) by lia.
  reflexivity.
Qed.

Lemma rotN_mod (x : Z) (r : nat) : rotN L x r = rotN L x (r mod L).
Proof. unfold rotN. rewrite Nat.Div0.mod_mod. reflexivity. Qed.

Lemma rotN_L (x : Z) : valid L x -> rotN L x L = x.
Proof. intros Hx. rewrite rotN_mod, Nat.Div0.mod_same. apply rotN_0; auto. Qed.

Lemma rotN_mul (x : Z) (q : nat) : valid L x -> rotN L x (q * L) = x.
Proof. intros Hx. rewrite rotN_mod, Nat.Div0.mod_mul. apply rotN_0; auto. Qed.

Lemma rotN_inv (x : Z) (r : nat) :
  valid L x -> rotN L (rotN L x r) (L - r mod L) = x.
Proof.
  intros Hx. rewrite rotN_add by auto.
  pose proof (Nat.div_mod_eq r L) as E.
  pose proof (Nat.mod_upper_bound r L ltac:(lia)).
  replace (r + (L - r mod L))%nat with ((r / L + 1) * L)%nat by nia.
  apply rotN_mul; auto.
Qed.

Lemma rotN_inj (x y : Z) (r : nat) :
  valid L x -> valid L y -> rotN L x r = rotN L y r -> x = y.
Proof.
  intros Hx Hy E. rewrite <- (rotN_inv x r), <- (rotN_inv y r) by auto.
  rewrite E. reflexivity.
Qed.

Lemma rotN_comm (x : Z) (r t : nat) :
  valid L x -> rotN L (rotN L x r) t = rotN L (rotN L x t) r.
Proof. intros Hx. rewrite !rotN_add by auto. f_equal. lia. Qed.

Lemma rotN_FilpBit (x : Z) (i s : nat) :
  (i < L)%nat -> valid L x ->
  rotN L (FilpBit x i) s = FilpBit (rotN L x s) ((i + s) mod L).
Proof.
  intros Hi Hx.
  assert (HiL : ((i + s) mod L < L)%nat) by (apply Nat.mod_upper_bound; lia).
  apply (state_ext L).
  - apply valid_rotN, valid_FilpBit; auto.
  - apply valid_FilpBit, valid_rotN; auto.
  - intros j Hj.
    assert (Hm : 0 <= (j - Z.of_nat s) mod Z.of_nat L < Z.of_nat L)
      by (apply Z.mod_pos_bound; lia).
    rewrite rotN_bits by (auto using valid_FilpBit; lia).
    rewrite !FilpBit_bits by lia.
    rewrite rotN_bits by (auto; lia).
    replace (j <? Z.of_nat L) with true by (symmetry; apply Z.ltb_lt; lia).
    simpl. f_equal.
    rewrite Nat2Z.inj_mod, Nat2Z.inj_add.
    destruct (Z.eqb_spec ((j - Z.of_nat s) mod Z.of_nat L) (Z.of_nat i)) as [E|E];
    destruct (Z.eqb_spec j ((Z.of_nat i + Z.of_nat s) mod Z.of_nat L)) as [F|F];
      auto.
    + exfalso. apply F. rewrite <- E, Zplus_mod_idemp_l.
      replace (j - Z.of_nat s + Z.of_nat s) with j by lia.
      rewrite Z.mod_small by lia. reflexivity.
    + exfalso. apply E. rewrite F, Zminus_mod_idemp_l.
      replace (Z.of_nat i + Z.of_nat s - Z.of_nat s) with (Z.of_nat i) by lia.
      rewrite Z.mod_small by lia. reflexivity.
Qed.

End Rotations.

Close Scope Z_scope.

(** * Python list helpers *)

Lemma index_of_first (x : Z) (l : list Z) (i : nat) :
  index_of x l = Some i <->
  nth_error l i = Some x /\ (forall j, j < i -> nth_error l j <> Some x).
Proof.
  revert i; induction l as [|y l IH]; intros i; simpl.
  - split; [discriminate|]. intros [H _]. destruct i; discriminate.
  - destruct (Z.eqb_spec y x) as [E|E].
    + subst. split.
      * intros H; inversion H; subst. split; [reflexivity|]. intros j Hj; lia.
      * intros [H1 H2]. destruct i; [reflexivity|].
        exfalso. apply (H2 0); [lia|reflexivity].
    + split.
      * case_eq (index_of x l); [intros i' Ei | intros _]; simpl; [|discriminate].
        intros H; inversion H; subst. apply IH in Ei as [E1 E2].
        split; [exact E1|].
        intros [|j] Hj; simpl.
        -- intros F; inversion F; auto.
        -- apply E2; lia.
      * intros [H1 H2]. destruct i as [|i]; simpl in H1.
        -- inversion H1; contradiction.
        -- assert (index_of x l = Some i) as ->.
           { apply IH. split; auto. intros j Hj. apply (H2 (S j)); lia. }
           reflexivity.
Qed.

Lemma index_of_In (x : Z) (l : list Z) : In x l -> exists i, index_of x l = Some i.
Proof.
  induction l as [|y l IH]; simpl; intros H; [contradiction|].
  destruct (Z.eqb_spec y x); [eauto|].
  destruct H as [H|H]; [congruence|].
  destruct (IH H) as [i ->]. simpl. eauto.
Qed.

Lemma index_of_NoDup (x : Z) (l : list Z) (i : nat) :
  NoDup l -> nth_error l i = Some x -> index_of x l = Some i.
Proof.
  intros Hnd Hi. apply index_of_first. split; auto.
  intros j Hj E. rewrite NoDup_nth_error in Hnd.
  assert (j < length l).
  { apply nth_error_Some. rewrite E. discriminate. }
  specialize (Hnd j i H). rewrite E, Hi in Hnd. specialize (Hnd eq_refl). lia.
Qed.

Lemma existsb_eqb_In (x : Z) (l : list Z) : existsb (Z.eqb x) l = true <-> In x l.
Proof.
  rewrite existsb_exists. split.
  - intros [y [Hy E]]. apply Z.eqb_eq in E. subst. exact Hy.
  - intros H. exists x. split; auto. apply Z.eqb_refl.
Qed.

Lemma nth_error_map_seq {A : Type} (f : nat -> A) (a n i : nat) :
  nth_error (map f (seq a n)) i = if i <? n then Some (f (a + i)) else None.
Proof.
  rewrite nth_error_map, nth_error_seq. destruct (i <? n); reflexivity.
Qed.

Lemma fold_min_spec (l : list Z) (x : Z) :
  In (fold_left Z.min l x) (x :: l) /\
  (forall y, In y (x :: l) -> (fold_left Z.min l x <= y)%Z).
Proof.
  revert x; induction l as [|z l IH]; intros x; simpl.
  - split; [auto|]. intros y [<-|[]]. lia.
  - destruct (IH (Z.min x z)) as [H1 H2]. split.
    + destruct H1 as [E|E]; [|auto].
      rewrite <- E. destruct (Z.min_spec x z) as [[_ ->]|[_ ->]]; auto.
    + intros y Hy.
      assert (Hm : (fold_left Z.min l (Z.min x z) <= Z.min x z)%Z) by (apply H2; left; auto).
      destruct Hy as [<-|[<-|Hy]]; [lia|lia|]. apply H2. right. exact Hy.
Qed.

Lemma list_min_spec (l : list Z) (m : Z) :
  list_min l = Some m <-> In m l /\ (forall y, In y l -> (m <= y)%Z).
Proof.
  destruct l as [|x l]; simpl.
  - split; [discriminate|]. intros [[] _].
  - destruct (fold_min_spec l x) as [H1 H2]. split.
    + intros E; inversion E; subst; auto.
    + intros [H3 H4]. f_equal.
      apply Z.le_antisymm; [apply H2 | apply H4]; auto.
Qed.

Lemma list_min_ext (l1 l2 : list Z) :
  (forall y, In y l1 <-> In y l2) -> list_min l1 = list_min l2.
Proof.
  intros H. destruct (list_min l1) as [m|] eqn:E1.
  - apply list_min_spec in E1 as [E2 E3]. symmetry. apply list_min_spec.
    split; [apply H; auto|]. intros y Hy. apply E3, H, Hy.
  - destruct l1 as [|x l1]; [|discriminate].
    destruct l2 as [|y l2]; [reflexivity|].
    exfalso. apply (proj2 (H y)). left; reflexivity.
Qed.

(** * Orbits under translation: representative, period, distance *)

Section Orbits.

Variable L : nat.
Hypothesis HL : 1 <= L.

Lemma Tlist_rotN (m : Z) :
  valid L m -> Tlist L m = map (rotN L m) (seq 0 (L + 1)).
Proof.
  intros Hm. unfold Tlist. apply map_ext_in. intros s Hs.
  apply in_seq in Hs. apply RotLBit_rotN; auto; lia.
Qed.

Lemma tl_Tlist (m : Z) :
  valid L m -> tl (Tlist L m) = map (rotN L m) (seq 1 L).
Proof.
  intros Hm. rewrite Tlist_rotN by auto.
  replace (L + 1) with (S L) by lia. reflexivity.
Qed.

Lemma In_Tlist (m y : Z) :
  valid L m -> In y (Tlist L m) <-> exists s, y = rotN L m s.
Proof.
  intros Hm. rewrite Tlist_rotN by auto. rewrite in_map_iff. split.
  - intros [s [<- _]]. eauto.
  - intros [s ->]. exists (s mod L). split.
    + symmetry. apply rotN_mod.
    + apply in_seq. pose proof (Nat.mod_upper_bound s L). lia.
Qed.

Lemma period_index (m : Z) :
  valid L m ->
  exists R, index_of m (tl (Tlist L m)) = Some (R - 1) /\ is_period L m R.
Proof.
  intros Hm. rewrite tl_Tlist by auto.
  destruct (index_of_In m (map (rotN L m) (seq 1 L))) as [i Hi].
  { apply in_map_iff. exists L. split; [apply rotN_L; auto|].
    apply in_seq. lia. }
  pose proof Hi as Hi'. apply index_of_first in Hi' as [E1 E2].
  rewrite nth_error_map_seq in E1.
  destruct (Nat.ltb_spec i L) as [Hlt|]; [|discriminate].
  injection E1 as E1'.
  exists (i + 1). replace (i + 1 - 1) with i by lia. split; [exact Hi|].
  split; [lia|]. split.
  - replace (i + 1) with (1 + i) by lia. exact E1'.
  - intros r Hr E. apply (E2 (r - 1)); [lia|].
    rewrite nth_error_map_seq.
    destruct (Nat.ltb_spec (r - 1) L); [|lia].
    replace (1 + (r - 1)) with r by lia. rewrite E. reflexivity.
Qed.

Lemma rotN_period_mul (m : Z) (R q : nat) :
  valid L m -> rotN L m R = m -> rotN L m (q * R) = m.
Proof.
  intros Hm HR. induction q as [|q IH]; simpl.
  - apply rotN_0; auto.
  - rewrite Nat.add_comm, <- rotN_add by auto. rewrite IH. exact HR.
Qed.

Lemma rotN_mod_period (m : Z) (R s : nat) :
  valid L m -> is_period L m R -> rotN L m s = rotN L m (s mod R).
Proof.
  intros Hm [HR [HRm _]].
  rewrite (Nat.div_mod_eq s R) at 1. rewrite Nat.mul_comm.
  rewrite <- rotN_add by auto. rewrite rotN_period_mul; auto.
Qed.

Lemma period_fix_iff (m : Z) (R s : nat) :
  valid L m -> is_period L m R -> rotN L m s = m <-> s mod R = 0.
Proof.
  intros Hm HP. pose proof HP as [HR [_ Hmin]].
  rewrite (rotN_mod_period m R s) by auto. split.
  - intros E. destruct (Nat.eq_dec (s mod R) 0) as [|Hne]; auto.
    exfalso. apply (Hmin (s mod R)); auto.
    pose proof (Nat.mod_upper_bound s R). lia.
  - intros ->. apply rotN_0; auto.
Qed.

Lemma period_divides_L (m : Z) (R : nat) :
  valid L m -> is_period L m R -> Nat.divide R L.
Proof.
  intros Hm HP. apply Nat.Lcm0.mod_divide.
  apply (period_fix_iff m R L); auto. apply rotN_L; auto.
Qed.

Lemma rotN_eq_iff (m : Z) (R s t : nat) :
  valid L m -> is_period L m R -> rotN L m s = rotN L m t <-> s mod R = t mod R.
Proof.
  intros Hm HP. pose proof HP as [HR _].
  rewrite (rotN_mod_period m R s), (rotN_mod_period m R t) by auto.
  split; [|intros ->; reflexivity].
  pose proof (Nat.mod_upper_bound s R ltac:(lia)).
  pose proof (Nat.mod_upper_bound t R ltac:(lia)).
  set (a := s mod R) in *. set (b := t mod R) in *. intros E.
  assert (Key : forall a b, a < b < R -> rotN L m a = rotN L m b -> False).
  { intros a' b' Hab E'.
    assert (E2 : rotN L (rotN L m (b' - a')) a' = rotN L m a').
    { rewrite rotN_add by auto. replace (b' - a' + a') with b' by lia.
      symmetry; exact E'. }
    apply rotN_inj in E2; auto using valid_rotN.
    apply (period_fix_iff m R) in E2; auto.
    rewrite Nat.mod_small in E2 by lia. lia. }
  destruct (lt_eq_lt_dec a b) as [[Hlt|Heq]|Hgt]; auto.
  - exfalso. apply (Key a b); auto.
  - exfalso. apply (Key b a); auto.
Qed.

Lemma period_unique (m : Z) (R1 R2 : nat) :
  is_period L m R1 -> is_period L m R2 -> R1 = R2.
Proof.
  intros [H1 [E1 M1]] [H2 [E2 M2]].
  destruct (lt_eq_lt_dec R1 R2) as [[Hlt|Heq]|Hgt]; auto.
  - exfalso. apply (M2 R1); auto; lia.
  - exfalso. apply (M1 R2); auto; lia.
Qed.

Lemma period_rotN (m : Z) (R t : nat) :
  valid L m -> is_period L m R -> is_period L (rotN L m t) R.
Proof.
  intros Hm [HR [ER M]]. split; [exact HR|]. split.
  - rewrite rotN_comm by auto. rewrite ER. reflexivity.
  - intros r Hr E. apply (M r Hr).
    rewrite rotN_comm in E by auto.
    apply rotN_inj in E; auto using valid_rotN.
Qed.

Lemma In_Tlist_rotN (m y : Z) (t : nat) :
  valid L m -> In y (Tlist L (rotN L m t)) <-> In y (Tlist L m).
Proof.
  intros Hm. rewrite !In_Tlist by auto using valid_rotN. split.
  - intros [s ->]. rewrite rotN_add by auto. eauto.
  - intros [s ->]. exists (L - t mod L + s). rewrite rotN_add, Nat.add_assoc by auto.
    rewrite <- (rotN_add L HL m (t + (L - t mod L)) s) by auto.
    rewrite <- (rotN_add L HL m t (L - t mod L)) by auto.
    rewrite rotN_inv by auto. reflexivity.
Qed.

Lemma list_min_Tlist_rotN (m : Z) (t : nat) :
  valid L m -> list_min (Tlist L (rotN L m t)) = list_min (Tlist L m).
Proof. intros Hm. apply list_min_ext. intros y. apply In_Tlist_rotN; auto. Qed.

Lemma list_min_Tlist (m : Z) :
  valid L m ->
  exists r, list_min (Tlist L m) = Some r /\ (exists s, r = rotN L m s) /\
            (forall s, (r <= rotN L m s)%Z).
Proof.
  intros Hm. destruct (list_min (Tlist L m)) as [r|] eqn:E.
  - apply list_min_spec in E as [E1 E2]. exists r. split; auto. split.
    + apply In_Tlist; auto.
    + intros s. apply E2, In_Tlist; eauto.
  - exfalso. rewrite Tlist_rotN in E by auto.
    replace (L + 1) with (S L) in E by lia. discriminate.
Qed.

(** The distance [d = Tlist.index(m_rs)] from a state to its representative. *)
Lemma dist_spec (m r : Z) :
  valid L m -> list_min (Tlist L m) = Some r ->
  exists d, index_of r (Tlist L m) = Some d /\ d <= L /\ rotN L m d = r /\
            (forall j, j < d -> rotN L m j <> r).
Proof.
  intros Hm Hr. apply list_min_spec in Hr as [Hin _].
  destruct (index_of_In r _ Hin) as [d Hd]. exists d. split; auto.
  pose proof Hd as Hd'. apply index_of_first in Hd' as [E1 E2].
  rewrite Tlist_rotN, nth_error_map_seq in E1 by auto.
  destruct (Nat.ltb_spec d (L + 1)); [|discriminate].
  injection E1 as E1. split; [lia|]. split; auto.
  intros j Hj E. apply (E2 j Hj).
  rewrite Tlist_rotN, nth_error_map_seq by auto.
  destruct (Nat.ltb_spec j (L + 1)); [|lia]. rewrite Nat.add_0_l, E. reflexivity.
Qed.

Lemma dist_lt_period (m r : Z) (R d : nat) :
  valid L m -> is_period L m R -> rotN L m d = r ->
  (forall j, j < d -> rotN L m j <> r) -> d < R.
Proof.
  intros Hm HP Hd Hfirst. pose proof HP as [HR _].
  destruct (Nat.lt_ge_cases d R) as [|Hge]; auto. exfalso.
  apply (Hfirst (d - R)); [lia|]. rewrite <- Hd.
  apply (rotN_eq_iff m R); auto.
  replace d with (d - R + 1 * R) at 2 by lia.
  rewrite Nat.Div0.mod_add. reflexivity.
Qed.

End Orbits.

(** * The basis of a momentum sector *)

Section Basis.

Variable L : nat.
Hypothesis HL : 1 <= L.

Lemma period_spec (m : Z) :
  valid L m ->
  index_of m (tl (Tlist L m)) = Some (period L m - 1) /\ is_period L m (period L m).
Proof.
  intros Hm. destruct (period_index L HL m Hm) as [R [E HR]].
  unfold period. rewrite E. pose proof HR as [HR1 _].
  replace (R - 1 + 1) with R by lia. auto.
Qed.

Lemma rep_spec (m : Z) :
  valid L m ->
  list_min (Tlist L m) = Some (rep L m) /\ (exists s, rep L m = rotN L m s) /\
  (forall s, (rep L m <= rotN L m s)%Z).
Proof.
  intros Hm. destruct (list_min_Tlist L HL m Hm) as [r [E [H1 H2]]].
  unfold rep. rewrite E. auto.
Qed.

Lemma dist_full (m : Z) :
  valid L m ->
  index_of (rep L m) (Tlist L m) = Some (dist L m) /\
  rotN L m (dist L m) = rep L m /\ dist L m < period L m.
Proof.
  intros Hm. destruct (rep_spec m Hm) as [E _].
  destruct (dist_spec L HL m (rep L m) Hm E) as [d [Ed [Hd1 [Hd2 Hd3]]]].
  unfold dist. rewrite Ed. split; auto. split; auto.
  apply (dist_lt_period L HL m (rep L m)); auto. apply period_spec; auto.
Qed.

Lemma valid_rep (m : Z) : valid L m -> valid L (rep L m).
Proof.
  intros Hm. destruct (rep_spec m Hm) as [_ [[s ->] _]]. apply valid_rotN; auto.
Qed.

Lemma rep_rotN (m : Z) (t : nat) : valid L m -> rep L (rotN L m t) = rep L m.
Proof.
  intros Hm. unfold rep. rewrite list_min_Tlist_rotN by auto.
  destruct (list_min_Tlist L HL m Hm) as [r [-> _]]. reflexivity.
Qed.

Lemma period_rotN_eq (m : Z) (t : nat) :
  valid L m -> period L (rotN L m t) = period L m.
Proof.
  intros Hm. apply (period_unique L HL (rotN L m t)).
  - apply (period_spec (rotN L m t)), valid_rotN; auto.
  - apply period_rotN; auto. apply (period_spec m); auto.
Qed.

Lemma rep_rep (m : Z) : valid L m -> rep L (rep L m) = rep L m.
Proof.
  intros Hm. destruct (rep_spec m Hm) as [_ [[s E] _]].
  rewrite E at 1. rewrite rep_rotN; auto.
Qed.

Lemma period_rep (m : Z) : valid L m -> period L (rep L m) = period L m.
Proof.
  intros Hm. destruct (rep_spec m Hm) as [_ [[s E] _]].
  rewrite E. apply period_rotN_eq; auto.
Qed.

Lemma period_pos (m : Z) : valid L m -> 1 <= period L m <= L.
Proof. intros Hm. apply period_spec; auto. Qed.

Lemma two_pow_Z : Z.of_nat (2 ^ L) = (2 ^ Z.of_nat L)%Z.
Proof. rewrite Nat2Z.inj_pow. reflexivity. Qed.

Lemma valid_BuildBasisN (n : Z) : In n (BuildBasisN L) -> valid L n.
Proof.
  unfold BuildBasisN. rewrite in_map_iff. intros [i [<- Hi]].
  apply in_seq in Hi. unfold valid. split; [lia|].
  rewrite <- two_pow_Z. lia.
Qed.

Lemma basis_step_eq (k : nat) (acc : list Z) (n : Z) :
  valid L n ->
  basis_step L k acc n = Some (if in_sector L k n then acc ++ [n] else acc).
Proof.
  intros Hn. unfold basis_step, in_sector.
  destruct (rep_spec n Hn) as [E1 _]. destruct (period_spec n Hn) as [E2 [HP _]].
  rewrite E1, E2. replace (period L n - 1 + 1) with (period L n) by lia.
  destruct (_ && _); reflexivity.
Qed.

Lemma foldM_basis (k : nat) (l acc : list Z) :
  (forall n, In n l -> valid L n) ->
  foldM (basis_step L k) l acc = Some (acc ++ filter (in_sector L k) l).
Proof.
  revert acc; induction l as [|n l IH]; intros acc Hl; simpl.
  - rewrite app_nil_r. reflexivity.
  - rewrite basis_step_eq by (apply Hl; left; reflexivity).
    rewrite IH by (intros; apply Hl; right; assumption).
    destruct (in_sector L k n); [rewrite <- app_assoc|]; reflexivity.
Qed.

Lemma BuildBasisNk_filter (k : nat) :
  BuildBasisNk L k = Some (filter (in_sector L k) (BuildBasisN L)).
Proof.
  unfold BuildBasisNk. apply foldM_basis. apply valid_BuildBasisN.
Qed.

Lemma StronglySorted_filter {A : Type} (Rel : A -> A -> Prop) (f : A -> bool) (l : list A) :
  StronglySorted Rel l -> StronglySorted Rel (filter f l).
Proof.
  induction 1 as [|a l Hs IH Hf]; simpl; [constructor|].
  destruct (f a); auto. constructor; auto.
  rewrite Forall_forall in *. intros x Hx. apply filter_In in Hx as [Hx _]. auto.
Qed.

Lemma StronglySorted_range (a n : nat) :
  StronglySorted Z.lt (map Z.of_nat (seq a n)).
Proof.
  revert a; induction n as [|n IH]; intros a; simpl; constructor; auto.
  rewrite Forall_forall. intros x Hx. apply in_map_iff in Hx as [i [<- Hi]].
  apply in_seq in Hi. lia.
Qed.

Lemma StronglySorted_NoDup (l : list Z) : StronglySorted Z.lt l -> NoDup l.
Proof.
  induction 1 as [|a l Hs IH Hf]; constructor; auto.
  intros Ha. rewrite Forall_forall in Hf. specialize (Hf a Ha). lia.
Qed.

Lemma basis_sorted (k : nat) : StronglySorted Z.lt (filter (in_sector L k) (BuildBasisN L)).
Proof. apply StronglySorted_filter, StronglySorted_range. Qed.

Lemma basis_NoDup (k : nat) : NoDup (filter (in_sector L k) (BuildBasisN L)).
Proof. apply StronglySorted_NoDup, basis_sorted. Qed.

Lemma In_BuildBasisN (n : Z) : In n (BuildBasisN L) <-> valid L n.
Proof.
  split; [apply valid_BuildBasisN|]. intros [H0 H1].
  unfold BuildBasisN. apply in_map_iff. exists (Z.to_nat n).
  split; [lia|]. apply in_seq. split; [lia|].
  rewrite <- two_pow_Z in H1. lia.
Qed.

Lemma In_basis (k : nat) (n : Z) :
  In n (filter (in_sector L k) (BuildBasisN L)) <->
  valid L n /\ rep L n = n /\ (k * period L n) mod L = 0.
Proof.
  rewrite filter_In, In_BuildBasisN. unfold in_sector.
  rewrite andb_true_iff, Z.eqb_eq, Nat.eqb_eq. tauto.
Qed.

End Basis.

(** * Reindexing sums over [0 .. L-1] *)

Lemma Permutation_map_seq (sigma : nat -> nat) (L : nat) :
  (forall x, x < L -> sigma x < L) ->
  (forall x y, x < L -> y < L -> sigma x = sigma y -> x = y) ->
  Permutation (map sigma (seq 0 L)) (seq 0 L).
Proof.
  intros Hr Hi. apply NoDup_Permutation_bis.
  - apply NoDup_map_NoDup_ForallPairs; [|apply seq_NoDup].
    intros x y Hx Hy. apply in_seq in Hx, Hy. apply Hi; lia.
  - rewrite length_map. lia.
  - intros y Hy. apply in_map_iff in Hy as [x [<- Hx]]. apply in_seq in Hx.
    apply in_seq. specialize (Hr x). lia.
Qed.

Lemma shift_mod_inj (L c j1 j2 : nat) :
  1 <= L -> j1 < L -> j2 < L -> (j1 + c) mod L = (j2 + c) mod L -> j1 = j2.
Proof.
  intros HL H1 H2 E.
  assert (K : forall j, j < L -> ((j + c) mod L + (L - c mod L)) mod L = j).
  { intros j Hj. rewrite Nat.Div0.add_mod_idemp_l.
    pose proof (Nat.div_mod_eq c L) as D.
    pose proof (Nat.mod_upper_bound c L ltac:(lia)).
    replace (j + c + (L - c mod L)) with (j + (c / L + 1) * L) by nia.
    rewrite Nat.Div0.mod_add. apply Nat.mod_small; auto. }
  rewrite <- (K j1 H1), <- (K j2 H2), E. reflexivity.
Qed.

Lemma length_filter_perm {A : Type} (f : A -> bool) (l1 l2 : list A) :
  Permutation l1 l2 -> length (filter f l1) = length (filter f l2).
Proof.
  induction 1; simpl; auto.
  - destruct (f x); simpl; auto.
  - destruct (f x), (f y); simpl; auto.
  - congruence.
Qed.

Lemma length_filter_map {A B : Type} (f : B -> bool) (g : A -> B) (l : list A) :
  length (filter f (map g l)) = length (filter (fun x => f (g x)) l).
Proof.
  induction l as [|x l IH]; simpl; auto. destruct (f (g x)); simpl; auto.
Qed.

(** bit [j] of [rotN L x s] is bit [shift_idx] of [x], in [nat] indices *)
Lemma shift_idx_Z (L s j : nat) :
  1 <= L ->
  Z.of_nat ((j + (L - s mod L)) mod L)
  = ((Z.of_nat j - Z.of_nat s) mod Z.of_nat L)%Z.
Proof.
  intros HL. pose proof (Nat.mod_upper_bound s L ltac:(lia)).
  rewrite Nat2Z.inj_mod, Nat2Z.inj_add, Nat2Z.inj_sub by lia.
  rewrite Nat2Z.inj_mod.
  replace (Z.of_nat j + (Z.of_nat L - Z.of_nat s mod Z.of_nat L))%Z
    with (Z.of_nat j - Z.of_nat s mod Z.of_nat L + 1 * Z.of_nat L)%Z by lia.
  rewrite Z.mod_add by lia. apply Zminus_mod_idemp_r.
Qed.

(** * Set-bit counts *)

Lemma count_char_app (c : ascii) (s1 s2 : string) :
  count_char c (s1 ++ s2) = count_char c s1 + count_char c s2.
Proof. induction s1 as [|x s1 IH]; simpl; auto. rewrite IH. lia. Qed.

Lemma count_pos_repr (p : positive) : count_char "1"%char (pos_repr p) = pcount p.
Proof.
  induction p as [q IH|q IH|]; simpl; auto; rewrite count_char_app, IH; simpl; lia.
Qed.

Lemma CountBit_zcount (x : Z) : (0 <= x)%Z -> CountBit x = zcount x.
Proof.
  intros Hx. unfold CountBit, binary_repr. destruct x as [|p|p]; simpl; auto.
  - apply count_pos_repr.
  - lia.
Qed.

Lemma zcount_div2 (x : Z) :
  (0 <= x)%Z -> zcount x = (if Z.odd x then 1 else 0) + zcount (Z.div2 x).
Proof. intros Hx. destruct x as [|[q|q|]|q]; simpl; auto; lia. Qed.

Lemma popL_zcount (L : nat) (x : Z) : valid L x -> popL L x = zcount x.
Proof.
  revert x; induction L as [|L IH]; intros x [H0 H1].
  - simpl in H1. assert (x = 0%Z) as -> by lia. reflexivity.
  - unfold popL. cbn [seq]. rewrite <- seq_shift.
    cbn [filter]. rewrite zcount_div2 by lia.
    rewrite <- Z.bit0_odd.
    assert (E : length (filter (fun j => Z.testbit x (Z.of_nat j)) (map S (seq 0 L)))
                = popL L (Z.div2 x)).
    { rewrite length_filter_map. unfold popL. f_equal. apply filter_ext_in.
      intros j Hj. rewrite Z.div2_div, Z.div2_bits by lia. f_equal. lia. }
    rewrite <- IH.
    + change (Z.of_nat 0) with 0%Z.
      destruct (Z.testbit x 0); cbn [length]; rewrite E; reflexivity.
    + split; [rewrite Z.div2_div; apply Z.div_pos; lia|].
      rewrite Z.div2_div. rewrite Nat2Z.inj_succ, Z.pow_succ_r in H1 by lia.
      apply Z.div_lt_upper_bound; lia.
Qed.

Lemma CountBit_popL (L : nat) (x : Z) : valid L x -> CountBit x = popL L x.
Proof.
  intros Hx. rewrite CountBit_zcount by (destruct Hx; lia).
  symmetry. apply popL_zcount; auto.
Qed.

Lemma popL_rotN (L : nat) (x : Z) (s : nat) :
  1 <= L -> valid L x -> popL L (rotN L x s) = popL L x.
Proof.
  intros HL Hx. unfold popL.
  set (sigma := fun j => (j + (L - s mod L)) mod L).
  transitivity (length (filter (fun j => Z.testbit x (Z.of_nat j)) (map sigma (seq 0 L)))).
  - rewrite length_filter_map. f_equal. apply filter_ext_in.
    intros j Hj. apply in_seq in Hj.
    rewrite rotN_bits by (auto; lia).
    replace (Z.of_nat j <? Z.of_nat L)%Z with true by (symmetry; apply Z.ltb_lt; lia).
    unfold sigma. rewrite shift_idx_Z by auto. reflexivity.
  - apply length_filter_perm, Permutation_map_seq.
    + intros j Hj. apply Nat.mod_upper_bound. lia.
    + intros j1 j2 H1 H2 E. apply (shift_mod_inj L (L - s mod L)); auto.
Qed.

Section BasisFacts.

Variable L : nat.
Hypothesis HL : 1 <= L.

Lemma is_period_RotLBit (m : Z) (R : nat) :
  valid L m ->
  is_period L m R <->
  1 <= R <= L /\ RotLBit m L R = m /\ (forall r, 1 <= r < R -> RotLBit m L r <> m).
Proof.
  intros Hm. unfold is_period. split.
  - intros [HR [E M]]. split; auto.
    rewrite RotLBit_rotN by (auto; lia). split; auto.
    intros r Hr. rewrite RotLBit_rotN by (auto; lia). auto.
  - intros [HR [E M]]. split; auto.
    rewrite <- RotLBit_rotN by (auto; lia). split; auto.
    intros r Hr. rewrite <- RotLBit_rotN by (auto; lia). auto.
Qed.

Lemma rep_self_iff (n : Z) :
  valid L n ->
  rep L n = n <-> list_min (map (fun s => RotLBit n L s) (seq 0 L)) = Some n.
Proof.
  intros Hn. destruct (rep_spec L HL n Hn) as [_ [[s0 Es0] Hle]].
  rewrite list_min_spec. split.
  - intros E. split.
    + apply in_map_iff. exists 0. split; [|apply in_seq; lia].
      rewrite RotLBit_rotN by (auto; lia). apply rotN_0; auto.
    + intros y Hy. apply in_map_iff in Hy as [s [<- Hs]]. apply in_seq in Hs.
      rewrite RotLBit_rotN by (auto; lia). rewrite <- E at 1. apply Hle.
  - intros [_ H]. apply Z.le_antisymm.
    + rewrite <- (rotN_0 L HL n) at 2 by auto. apply Hle.
    + rewrite Es0, rotN_mod. rewrite <- RotLBit_rotN.
      * apply H. apply in_map_iff. exists (s0 mod L). split; auto.
        apply in_seq. pose proof (Nat.mod_upper_bound s0 L). lia.
      * auto.
      * pose proof (Nat.mod_upper_bound s0 L). lia.
      * auto.
Qed.

End BasisFacts.

(** * Finite sums *)

Section Sums.
Local Open Scope R_scope.

Lemma Rsum_app (l1 l2 : list R) : Rsum (l1 ++ l2) = Rsum l1 + Rsum l2.
Proof. induction l1 as [|x l IH]; simpl; [lra|]. rewrite IH. lra. Qed.

Lemma Rsum_perm (l1 l2 : list R) : Permutation l1 l2 -> Rsum l1 = Rsum l2.
Proof. induction 1; simpl; lra. Qed.

Lemma Rsum_ext_in {A : Type} (f g : A -> R) (l : list A) :
  (forall x, In x l -> f x = g x) -> Rsum (map f l) = Rsum (map g l).
Proof. intros H. rewrite (map_ext_in f g l H). reflexivity. Qed.

Lemma Rsum_plus {A : Type} (f g : A -> R) (l : list A) :
  Rsum (map (fun x => f x + g x) l) = Rsum (map f l) + Rsum (map g l).
Proof. induction l as [|x l IH]; simpl; [lra|]. rewrite IH. lra. Qed.

Lemma Rsum_scal {A : Type} (c : R) (f : A -> R) (l : list A) :
  Rsum (map (fun x => c * f x) l) = c * Rsum (map f l).
Proof. induction l as [|x l IH]; simpl; [lra|]. rewrite IH. lra. Qed.

Lemma Rsum_zero {A : Type} (l : list A) : Rsum (map (fun _ => 0) l) = 0.
Proof. induction l as [|x l IH]; simpl; [lra|]. rewrite IH. lra. Qed.

Lemma Rsum_swap {A B : Type} (f : A -> B -> R) (l1 : list A) (l2 : list B) :
  Rsum (map (fun i => Rsum (map (fun s => f i s) l2)) l1)
  = Rsum (map (fun s => Rsum (map (fun i => f i s) l1)) l2).
Proof.
  induction l1 as [|i l1 IH]; simpl.
  - symmetry. apply Rsum_zero.
  - rewrite IH. rewrite <- Rsum_plus. reflexivity.
Qed.

Lemma Rsum_reindex (sigma : nat -> nat) (L : nat) (f : nat -> R) :
  (forall x, (x < L)%nat -> (sigma x < L)%nat) ->
  (forall x y, (x < L)%nat -> (y < L)%nat -> sigma x = sigma y -> x = y) ->
  Rsum (map (fun x => f (sigma x)) (seq 0 L)) = Rsum (map f (seq 0 L)).
Proof.
  intros H1 H2. rewrite <- (map_map sigma f).
  apply Rsum_perm, Permutation_map, Permutation_map_seq; auto.
Qed.

Lemma Rsum_indicator_out (c : R) (d a n : nat) :
  ~ (a <= d < a + n)%nat ->
  Rsum (map (fun t => if Nat.eqb t d then c else 0) (seq a n)) = 0.
Proof.
  intros Hd. transitivity (Rsum (map (fun _ => 0) (seq a n)));
    [|apply Rsum_zero]. apply Rsum_ext_in.
  intros t Ht. apply in_seq in Ht. destruct (Nat.eqb_spec t d); [lia|reflexivity].
Qed.

Lemma Rsum_indicator_in (c : R) (d a n : nat) :
  (a <= d < a + n)%nat ->
  Rsum (map (fun t => if Nat.eqb t d then c else 0) (seq a n)) = c.
Proof.
  intros Hd. replace n with ((d - a) + (1 + (a + n - S d)))%nat by lia.
  rewrite !seq_app, !map_app, !Rsum_app.
  replace (a + (d - a))%nat with d by lia.
  rewrite (Rsum_indicator_out c d a (d - a)) by lia.
  rewrite (Rsum_indicator_out c d (d + 1)) by lia.
  simpl. rewrite Nat.eqb_refl. lra.
Qed.

Lemma Rsum_mod_count (c : R) (R0 d q : nat) :
  (d < R0)%nat ->
  Rsum (map (fun s => if Nat.eqb (s mod R0) d then c else 0) (seq 0 (q * R0)))
  = INR q * c.
Proof.
  intros Hd. induction q as [|q IH]; [simpl; lra|].
  replace (S q * R0)%nat with (q * R0 + R0)%nat by lia.
  rewrite seq_app, map_app, Rsum_app, IH, S_INR. simpl.
  rewrite (Rsum_ext_in _ (fun t => if Nat.eqb t (q * R0 + d) then c else 0)).
  - rewrite Rsum_indicator_in by lia. lra.
  - intros t Ht. apply in_seq in Ht.
    replace t with ((t - q * R0) + q * R0)%nat at 1 by lia.
    rewrite Nat.Div0.mod_add, Nat.mod_small by lia.
    destruct (Nat.eqb_spec (t - q * R0) d), (Nat.eqb_spec t (q * R0 + d));
      auto; lia.
Qed.

Lemma Re_Csum (l : list C) : Re (Csum l) = Rsum (map Re l).
Proof. induction l as [|z l IH]; simpl; auto. rewrite IH. reflexivity. Qed.

Lemma Im_Csum (l : list C) : Im (Csum l) = Rsum (map Im l).
Proof. induction l as [|z l IH]; simpl; auto. rewrite IH. reflexivity. Qed.

End Sums.

(** * Phases *)

Section Phases.
Local Open Scope R_scope.

Variable phi : R -> R.
Hypothesis phi_period : forall x n, phi (x + 2 * INR n * PI) = phi x.

Lemma theta_shift (L k s t q : nat) :
  (1 <= L)%nat -> (k * s = q * L + k * t)%nat ->
  theta L k s = theta L k t + 2 * INR q * PI.
Proof.
  intros HL E. unfold theta.
  assert (INR L <> 0) by (apply not_0_INR; lia).
  rewrite <- mult_INR, E, plus_INR, !mult_INR. field. auto.
Qed.

Lemma theta_period (L k R0 s : nat) :
  (1 <= L)%nat -> (1 <= R0)%nat -> ((k * R0) mod L = 0)%nat ->
  phi (theta L k s) = phi (theta L k (s mod R0)).
Proof.
  intros HL HR E.
  pose proof (Nat.div_mod_eq (k * R0) L) as D. rewrite E, Nat.add_0_r in D.
  pose proof (Nat.div_mod_eq s R0) as Ds.
  rewrite (theta_shift L k s (s mod R0) ((k * R0 / L) * (s / R0))); auto.
  rewrite Ds at 1. nia.
Qed.

Lemma theta_reflect (L k s : nat) (eps : R) :
  (1 <= L)%nat -> (s <= L)%nat ->
  (forall x, phi (- x) = eps * phi x) ->
  phi (theta L k (L - s)) = eps * phi (theta L k s).
Proof.
  intros HL Hs Hneg. unfold theta.
  assert (INR L <> 0) by (apply not_0_INR; lia).
  rewrite minus_INR by auto.
  replace (INR k * (INR L - INR s) * 2 * PI / INR L)
    with (- (INR k * INR s * 2 * PI / INR L) + 2 * INR k * PI) by (field; auto).
  rewrite phi_period. apply Hneg.
Qed.

End Phases.

Section OrbitSums.
Local Open Scope R_scope.

Variable L : nat.
Hypothesis HL : (1 <= L)%nat.

Lemma orbit_sum (m y : Z) (f : nat -> R) :
  valid L m -> valid L y -> rep L y = y ->
  (forall s, f s = f (s mod period L y)%nat) ->
  Rsum (map (fun s => if Z.eqb (rotN L m s) y then f s else 0) (seq 0 L))
  = if Z.eqb (rep L m) y then INR (L / period L m) * f (dist L m) else 0.
Proof.
  intros Hm Hy Hry Hf.
  destruct (Z.eqb_spec (rep L m) y) as [E|E].
  - subst y. rewrite period_rep in Hf by auto.
    set (R0 := period L m) in *.
    destruct (period_spec L HL m Hm) as [_ HP]. fold R0 in HP.
    pose proof HP as [HR _].
    destruct (period_divides_L L HL m R0 Hm HP) as [q Hq].
    destruct (dist_full L HL m Hm) as [_ [Hd1 Hd2]]. fold R0 in Hd2.
    set (d := dist L m) in *.
    rewrite (Rsum_ext_in _ (fun s => if Nat.eqb (s mod R0) d then f d else 0)).
    + replace (seq 0 L) with (seq 0 (q * R0)) by (rewrite <- Hq; reflexivity).
      rewrite Rsum_mod_count by auto.
      replace (L / R0)%nat with q; [reflexivity|].
      rewrite Hq, Nat.div_mul by lia. reflexivity.
    + intros s _. rewrite <- Hd1.
      destruct (Z.eqb_spec (rotN L m s) (rotN L m d)) as [F|F];
      destruct (Nat.eqb_spec (s mod R0) d) as [G|G]; auto.
      * rewrite Hf, G. reflexivity.
      * exfalso. apply G. apply (rotN_eq_iff L HL m R0 s d Hm HP) in F.
        rewrite F. apply Nat.mod_small. auto.
      * exfalso. apply F. apply (rotN_eq_iff L HL m R0 s d Hm HP).
        rewrite G. symmetry. apply Nat.mod_small. auto.
  - transitivity (Rsum (map (fun _ => 0) (seq 0 L))); [|apply Rsum_zero].
    apply Rsum_ext_in. intros s _.
    destruct (Z.eqb_spec (rotN L m s) y) as [F|F]; auto.
    exfalso. apply E. rewrite <- Hry, <- F. symmetry. apply rep_rotN; auto.
Qed.

Lemma FilpBit_involutive (z : Z) (j : nat) : FilpBit (FilpBit z j) j = z.
Proof.
  unfold FilpBit. rewrite Z.lxor_assoc, Z.lxor_nilpotent, Z.lxor_0_r.
  reflexivity.
Qed.

Lemma cnt_sym (z y : Z) : cnt L z y = cnt L y z.
Proof.
  unfold cnt. apply Rsum_ext_in. intros j _.
  destruct (Z.eqb_spec (FilpBit z j) y) as [E|E];
  destruct (Z.eqb_spec (FilpBit y j) z) as [F|F]; auto; exfalso.
  - apply F. rewrite <- E. apply FilpBit_involutive.
  - apply E. rewrite <- F. apply FilpBit_involutive.
Qed.

Lemma cnt_shift (x y : Z) (s : nat) :
  valid L x ->
  cnt L (rotN L x s) y
  = Rsum (map (fun i => if Z.eqb (rotN L (FilpBit x i) s) y then 1 else 0) (seq 0 L)).
Proof.
  intros Hx. unfold cnt.
  rewrite <- (Rsum_reindex (fun i => (i + s) mod L)%nat L).
  - apply Rsum_ext_in. intros i Hi. apply in_seq in Hi.
    rewrite rotN_FilpBit by (auto; lia). reflexivity.
  - intros i _. apply Nat.mod_upper_bound. lia.
  - intros i1 i2 H1 H2 E. apply (shift_mod_inj L s); auto.
Qed.

Lemma cnt_rot (z y : Z) (t : nat) :
  valid L z -> valid L y -> cnt L (rotN L z t) (rotN L y t) = cnt L z y.
Proof.
  intros Hz Hy. rewrite cnt_shift by auto. unfold cnt.
  apply Rsum_ext_in. intros i Hi. apply in_seq in Hi.
  destruct (Z.eqb_spec (rotN L (FilpBit z i) t) (rotN L y t)) as [E|E];
  destruct (Z.eqb_spec (FilpBit z i) y) as [F|F]; auto; exfalso.
  - apply F. apply (rotN_inj L HL _ _ t); auto. apply valid_FilpBit; auto; lia.
  - apply E. rewrite F. reflexivity.
Qed.

End OrbitSums.

Lemma sqrt_ratio (Ry Lr Rx h P : R) :
  (0 < Ry)%R -> (0 < Lr)%R ->
  (/ sqrt Ry * (sqrt Rx * (h * P)) = h * sqrt Rx * sqrt Ry / Lr * (Lr / Ry * P))%R.
Proof.
  intros HRy HLr. assert (Hs : (0 < sqrt Ry)%R) by (apply sqrt_lt_R0; auto).
  replace (Lr / Ry)%R with (Lr / (sqrt Ry * sqrt Ry))%R
    by (rewrite sqrt_sqrt; lra).
  field. lra.
Qed.

Lemma INR_div_exact (L R0 : nat) :
  (1 <= R0)%nat -> Nat.divide R0 L -> INR (L / R0) = (INR L / INR R0)%R.
Proof.
  intros HR [q ->]. rewrite Nat.div_mul by lia. rewrite mult_INR.
  field. apply not_0_INR. lia.
Qed.

Section FlipComponents.
Local Open Scope R_scope.

Variable L : nat.
Hypothesis HL : (1 <= L)%nat.
Variable k : nat.
Variable phi : R -> R.
Hypothesis phi_period : forall x n, phi (x + 2 * INR n * PI) = phi x.

Lemma flip_comp (h : R) (x y : Z) :
  valid L x -> valid L y -> rep L y = y -> ((k * period L y) mod L = 0)%nat ->
  Rsum (map (fun i => if Z.eqb (rep L (FilpBit x i)) y
                      then / sqrt (INR (period L (FilpBit x i)))
                           * (sqrt (INR (period L x))
                              * (h * phi (theta L k (dist L (FilpBit x i)))))
                      else 0) (seq 0 L))
  = h * sqrt (INR (period L x)) * sqrt (INR (period L y)) / INR L
    * Rsum (map (fun s => phi (theta L k s) * cnt L (rotN L x s) y) (seq 0 L)).
Proof.
  intros Hx Hy Hry Hk.
  set (K := h * sqrt (INR (period L x)) * sqrt (INR (period L y)) / INR L).
  pose proof (period_pos L HL y Hy) as HRy.
  assert (HLr : 0 < INR L) by (apply lt_0_INR; lia).
  rewrite (Rsum_ext_in _ (fun i => K * Rsum (map (fun s =>
              if Z.eqb (rotN L (FilpBit x i) s) y then phi (theta L k s) else 0)
              (seq 0 L)))).
  - rewrite Rsum_scal, Rsum_swap. f_equal. apply Rsum_ext_in. intros s Hs.
    rewrite cnt_shift by auto. rewrite <- Rsum_scal. apply Rsum_ext_in.
    intros i _. destruct (Z.eqb _ y); lra.
  - intros i Hi. apply in_seq in Hi.
    assert (Hf : valid L (FilpBit x i)) by (apply valid_FilpBit; auto; lia).
    rewrite (orbit_sum L HL (FilpBit x i) y (fun s => phi (theta L k s))); auto.
    + destruct (Z.eqb_spec (rep L (FilpBit x i)) y) as [E|E]; [|lra].
      assert (EP : period L (FilpBit x i) = period L y)
        by (rewrite <- E; symmetry; apply period_rep; auto).
      rewrite EP.
      destruct (period_spec L HL y Hy) as [_ HP].
      rewrite INR_div_exact by (auto; lia || apply (period_divides_L L HL y); auto).
      unfold K. apply sqrt_ratio; auto. apply lt_0_INR. lia.
    + intros s. apply theta_period; auto. lia.
Qed.

End FlipComponents.

Lemma reflect_idx (L s : nat) :
  (1 <= L)%nat -> (s < L)%nat -> (s = 0 /\ (L - s) mod L = 0 \/ 0 < s /\ (L - s) mod L = L - s)%nat.
Proof.
  intros HL Hs. destruct s as [|s].
  - left. split; auto. rewrite Nat.sub_0_r. apply Nat.Div0.mod_same.
  - right. split; [lia|]. apply Nat.mod_small. lia.
Qed.

Section Reflection.
Local Open Scope R_scope.

Variable L : nat.
Hypothesis HL : (1 <= L)%nat.
Variable k : nat.
Variable phi : R -> R.
Hypothesis phi_period : forall x n, phi (x + 2 * INR n * PI) = phi x.
Variable eps : R.
Hypothesis phi_neg : forall x, phi (- x) = eps * phi x.
Hypothesis eps_sq : eps * eps = 1.

Lemma reflect_sum (x y : Z) :
  valid L x -> valid L y ->
  Rsum (map (fun s => phi (theta L k s) * cnt L (rotN L y s) x) (seq 0 L))
  = eps * Rsum (map (fun s => phi (theta L k s) * cnt L (rotN L x s) y) (seq 0 L)).
Proof.
  intros Hx Hy.
  set (sigma := fun s => ((L - s) mod L)%nat).
  rewrite <- (Rsum_reindex sigma L (fun s => phi (theta L k s) * cnt L (rotN L x s) y)).
  - rewrite <- Rsum_scal. apply Rsum_ext_in. intros s Hs. apply in_seq in Hs.
    assert (E1 : phi (theta L k (sigma s)) = eps * phi (theta L k s)).
    { unfold sigma.
      rewrite <- (theta_period phi phi_period L k L (L - s)) by
        (auto; apply Nat.Div0.mod_mul).
      apply theta_reflect; auto. lia. }
    assert (E2 : cnt L (rotN L y s) x = cnt L (rotN L x (sigma s)) y).
    { rewrite cnt_sym. rewrite <- (cnt_rot L HL x (rotN L y s) (L - s mod L))
        by (auto using valid_rotN).
      rewrite rotN_inv by auto. unfold sigma. rewrite (Nat.mod_small s L) by lia.
      rewrite (rotN_mod L x (L - s)). reflexivity. }
    rewrite E1, E2. replace (eps * (eps * phi (theta L k s) * cnt L (rotN L x (sigma s)) y))
      with ((eps * eps) * (phi (theta L k s) * cnt L (rotN L x (sigma s)) y)) by ring.
    rewrite eps_sq. ring.
  - intros s _. apply Nat.mod_upper_bound. lia.
  - intros s1 s2 H1 H2 E. unfold sigma in E.
    destruct (reflect_idx L s1 HL H1) as [[A B]|[A B]];
    destruct (reflect_idx L s2 HL H2) as [[C D]|[C D]]; lia.
Qed.

End Reflection.

Section Hermitian.
Local Open Scope R_scope.

Variable L : nat.
Hypothesis HL : (1 <= L)%nat.
Variables (k : nat) (J g : R).

Lemma Re_flip_part (x y : Z) :
  valid L x -> valid L y -> rep L y = y -> ((k * period L y) mod L = 0)%nat ->
  Re (flip_part L k J g x y)
  = (- J * g) * sqrt (INR (period L x)) * sqrt (INR (period L y)) / INR L
    * Rsum (map (fun s => cos (theta L k s) * cnt L (rotN L x s) y) (seq 0 L)).
Proof.
  intros Hx Hy Hry Hk. unfold flip_part. rewrite Re_Csum, map_map.
  rewrite <- (flip_comp L HL k cos cos_period); auto.
  apply Rsum_ext_in. intros i _. destruct (Z.eqb _ y); reflexivity.
Qed.

Lemma Im_flip_part (x y : Z) :
  valid L x -> valid L y -> rep L y = y -> ((k * period L y) mod L = 0)%nat ->
  Im (flip_part L k J g x y)
  = (- J * g) * sqrt (INR (period L x)) * sqrt (INR (period L y)) / INR L
    * Rsum (map (fun s => sin (theta L k s) * cnt L (rotN L x s) y) (seq 0 L)).
Proof.
  intros Hx Hy Hry Hk. unfold flip_part. rewrite Im_Csum, map_map.
  rewrite <- (flip_comp L HL k sin sin_period); auto.
  apply Rsum_ext_in. intros i _. destruct (Z.eqb _ y); reflexivity.
Qed.

Lemma flip_part_herm (x y : Z) :
  valid L x -> valid L y -> rep L x = x -> rep L y = y ->
  ((k * period L x) mod L = 0)%nat -> ((k * period L y) mod L = 0)%nat ->
  flip_part L k J g x y = Cconj (flip_part L k J g y x).
Proof.
  intros Hx Hy Hrx Hry Hkx Hky.
  destruct (flip_part L k J g x y) as [a b] eqn:Exy.
  unfold Cconj. f_equal.
  - change a with (Re (mkC a b)). rewrite <- Exy.
    rewrite Re_flip_part, Re_flip_part by auto.
    rewrite (reflect_sum L HL k cos cos_period 1) by (auto; first [intros; rewrite cos_neg; ring | ring]).
    unfold Rdiv. ring.
  - change b with (Im (mkC a b)). rewrite <- Exy.
    rewrite Im_flip_part, Im_flip_part by auto.
    rewrite (reflect_sum L HL k sin sin_period (-1)) by (auto; first [intros; rewrite sin_neg; ring | ring]).
    unfold Rdiv. ring.
Qed.

End Hermitian.

(** * Complex arithmetic *)

Lemma C_ext (z w : C) : Re z = Re w -> Im z = Im w -> z = w.
Proof. destruct z, w; simpl; intros -> ->; reflexivity. Qed.

Lemma Cadd_0_l (z : C) : Cadd C0 z = z.
Proof. apply C_ext; simpl; lra. Qed.

Lemma Cadd_0_r (z : C) : Cadd z C0 = z.
Proof. apply C_ext; simpl; lra. Qed.

Lemma Cadd_assoc (x y z : C) : Cadd x (Cadd y z) = Cadd (Cadd x y) z.
Proof. apply C_ext; simpl; lra. Qed.

Lemma Cadd_comm (x y : C) : Cadd x y = Cadd y x.
Proof. apply C_ext; simpl; lra. Qed.

Lemma Cconj_add (x y : C) : Cconj (Cadd x y) = Cadd (Cconj x) (Cconj y).
Proof. apply C_ext; simpl; lra. Qed.

Lemma Cconj_C0 : Cconj C0 = C0.
Proof. apply C_ext; simpl; lra. Qed.

Lemma Csum_app (l1 l2 : list C) : Csum (l1 ++ l2) = Cadd (Csum l1) (Csum l2).
Proof.
  induction l1 as [|x l IH]; simpl; [rewrite Cadd_0_l; reflexivity|].
  rewrite IH, Cadd_assoc. reflexivity.
Qed.

Lemma Csum_zero {A : Type} (f : A -> C) (l : list A) :
  (forall x, In x l -> f x = C0) -> Csum (map f l) = C0.
Proof.
  induction l as [|x l IH]; simpl; intros H; auto.
  rewrite H, IH by auto. apply Cadd_0_l.
Qed.

(** * The triplet lists *)

Lemma coo_entry_app (rows cols : list nat) (vals : list C) (a b r c : nat) (v : C) :
  length rows = length vals -> length cols = length vals ->
  coo_entry (rows ++ [b]) (cols ++ [a]) (vals ++ [v]) r c
  = Cadd (coo_entry rows cols vals r c)
         (if Nat.eqb b r && Nat.eqb a c then v else C0).
Proof.
  revert rows cols; induction vals as [|x vals IH]; intros rows cols Hr Hc.
  - destruct rows; [|discriminate]. destruct cols; [|discriminate].
    simpl. rewrite Cadd_0_l, Cadd_0_r. reflexivity.
  - destruct rows as [|r0 rows]; [discriminate|].
    destruct cols as [|c0 cols]; [discriminate|].
    simpl in *. rewrite IH by lia. apply Cadd_assoc.
Qed.

Lemma coo_entry_set (rows cols : list nat) (vals : list C) (p a b r c : nat) (x v : C) :
  nth_error rows p = Some b -> nth_error cols p = Some a -> nth_error vals p = Some x ->
  coo_entry rows cols (list_set vals p (Cadd x v)) r c
  = Cadd (coo_entry rows cols vals r c)
         (if Nat.eqb b r && Nat.eqb a c then v else C0).
Proof.
  revert rows cols vals; induction p as [|p IH]; intros rows cols vals Hr Hc Hv.
  - destruct rows as [|r0 rows]; [discriminate|].
    destruct cols as [|c0 cols]; [discriminate|].
    destruct vals as [|x0 vals]; [discriminate|].
    simpl in *. injection Hr as ->. injection Hc as ->. injection Hv as ->.
    destruct (Nat.eqb b r && Nat.eqb a c).
    + apply C_ext; simpl; lra.
    + rewrite !Cadd_0_l, Cadd_0_r. reflexivity.
  - destruct rows as [|r0 rows]; [discriminate|].
    destruct cols as [|c0 cols]; [discriminate|].
    destruct vals as [|x0 vals]; [discriminate|].
    simpl in *. rewrite IH by auto. apply Cadd_assoc.
Qed.

Lemma length_list_set {A : Type} (l : list A) (p : nat) (x : A) :
  length (list_set l p x) = length l.
Proof.
  revert p; induction l as [|y l IH]; intros p; destruct p; simpl; auto.
Qed.

Lemma nth_error_some_lt {A : Type} (l : list A) (p : nat) (x : A) :
  nth_error l p = Some x -> p < length l.
Proof. intros H. apply nth_error_Some. congruence. Qed.

Lemma nth_error_app_prefix {A : Type} (l xs : list A) (p : nat) (x : A) :
  nth_error l p = Some x -> nth_error (l ++ xs) p = Some x.
Proof.
  intros H. rewrite nth_error_app1; auto. eapply nth_error_some_lt; eauto.
Qed.

Lemma accumulate_spec (st : Acc) (a b : nat) (v : C) :
  acc_inv st ->
  exists st', accumulate st a b v = Some st' /\ acc_inv st' /\
    (forall r c, coo_entry (HNk_row st') (HNk_col st') (HNk_val st') r c
                 = Cadd (coo_entry (HNk_row st) (HNk_col st) (HNk_val st) r c)
                        (if Nat.eqb b r && Nat.eqb a c then v else C0)) /\
    (exists xs ys, HNk_col st' = HNk_col st ++ xs /\ HNk_row st' = HNk_row st ++ ys) /\
    (exists p, nth_error (HNk_col st') p = Some a /\ nth_error (HNk_row st') p = Some b).
Proof.
  intros (Hlc & Hlr & Hpos & Hkey). unfold accumulate.
  destruct (pos_lookup (a, b) (pos st)) as [p|] eqn:Ep.
  - destruct (Hpos a b p Ep) as [Hc Hr].
    assert (Hp : p < length (HNk_val st)) by (rewrite <- Hlc; eapply nth_error_some_lt; eauto).
    destruct (nth_error (HNk_val st) p) as [x|] eqn:Ex;
      [|apply nth_error_None in Ex; lia].
    eexists. split; [reflexivity|]. simpl. split; [|split; [|split]].
    + unfold acc_inv; simpl. rewrite length_list_set. split; [|split]; auto.
    + intros r c. apply coo_entry_set; auto.
    + exists [], []. rewrite !app_nil_r. auto.
    + eauto.
  - eexists. split; [reflexivity|]. simpl.
    rewrite length_app. simpl. replace (length (HNk_col st) + 1 - 1) with (length (HNk_col st)) by lia.
    split; [|split; [|split]].
    + unfold acc_inv; simpl. split; [rewrite !length_app; simpl; lia|].
      split; [rewrite !length_app; simpl; lia|]. split.
      * intros a' b' p'. simpl.
        destruct (Nat.eqb_spec a a'), (Nat.eqb_spec b b'); simpl.
        -- subst. intros E; injection E as <-. split.
           ++ rewrite nth_error_app2, Nat.sub_diag by lia. reflexivity.
           ++ rewrite nth_error_app2 by lia. rewrite Hlr, <- Hlc, Nat.sub_diag. reflexivity.
        -- intros E. destruct (Hpos a' b' p' E). split; apply nth_error_app_prefix; auto.
        -- intros E. destruct (Hpos a' b' p' E). split; apply nth_error_app_prefix; auto.
        -- intros E. destruct (Hpos a' b' p' E). split; apply nth_error_app_prefix; auto.
      * intros p' a' b' Hc Hr. simpl.
        assert (p' < length (HNk_col st) + 1)
          by (apply nth_error_some_lt in Hc; rewrite length_app in Hc; simpl in Hc; lia).
        destruct (Nat.lt_ge_cases p' (length (HNk_col st))) as [Hlt|Hge].
        -- rewrite nth_error_app1 in Hc by lia.
           rewrite nth_error_app1 in Hr by lia.
           pose proof (Hkey p' a' b' Hc Hr) as E.
           destruct (Nat.eqb_spec a a'), (Nat.eqb_spec b b'); simpl; auto.
           subst. congruence.
        -- replace p' with (length (HNk_col st)) in * by lia.
           rewrite nth_error_app2, Nat.sub_diag in Hc by lia.
           rewrite nth_error_app2 in Hr by lia.
           rewrite Hlr, <- Hlc, Nat.sub_diag in Hr.
           simpl in Hc, Hr. injection Hc as <-. injection Hr as <-.
           rewrite !Nat.eqb_refl. reflexivity.
    + intros r c. apply coo_entry_app; lia.
    + eauto.
    + exists (length (HNk_col st)). split.
      * rewrite nth_error_app2, Nat.sub_diag by lia. reflexivity.
      * rewrite nth_error_app2 by lia. rewrite Hlr, <- Hlc, Nat.sub_diag. reflexivity.
Qed.

(** * ActingH as a list *)

Lemma ReadBit_b2z (i : Z) (n : nat) : ReadBit i n = Z.b2z (Z.testbit i (Z.of_nat n)).
Proof.
  apply Z.bits_inj'. intros m Hm. unfold ReadBit.
  rewrite Z.shiftr_spec, Z.land_spec, Z.shiftl_1_l, Z.pow2_bits_eqb by lia.
  destruct (Z.eqb_spec m 0) as [->|Hm0].
  - rewrite Z.add_0_l, Z.eqb_refl, andb_true_r, Z.b2z_bit0. reflexivity.
  - replace (Z.of_nat n =? m + Z.of_nat n)%Z with false by (symmetry; apply Z.eqb_neq; lia).
    rewrite andb_false_r. destruct (Z.testbit i (Z.of_nat n)).
    + change (Z.b2z true) with (2 ^ 0)%Z. rewrite Z.pow2_bits_eqb by lia.
      symmetry. apply Z.eqb_neq. lia.
    + symmetry. apply Z.testbit_0_l.
Qed.

Lemma fold_left_Rsum {A : Type} (F : R -> A -> R) (f : A -> R) (l : list A) (a : R) :
  (forall d x, In x l -> F d x = (d + f x)%R) ->
  fold_left F l a = (a + Rsum (map f l))%R.
Proof.
  revert a; induction l as [|x l IH]; intros a H; simpl; [lra|].
  rewrite IH by (intros; apply H; right; auto). rewrite H by (left; auto). lra.
Qed.

Lemma ActingH_eq (n : Z) (L : nat) (J g : R) :
  ActingH n L J g
  = map (fun i => (FilpBit n i, (- J * g)%R)) (seq 0 L) ++ [(n, diagSum n L J)].
Proof.
  unfold ActingH, diagSum. f_equal. f_equal. f_equal.
  rewrite (fold_left_Rsum _
             (fun j => if Z.eqb (ReadBit n (fst j)) (ReadBit n (snd j)) then (- J)%R else J)).
  - rewrite map_map. simpl. rewrite Rplus_0_l. f_equal. apply map_ext. intros i.
    rewrite !ReadBit_b2z.
    destruct (Z.testbit n (Z.of_nat i)), (Z.testbit n (Z.of_nat ((i + 1) mod L)));
      reflexivity.
  - intros d j _. destruct (Z.eqb _ _); lra.
Qed.

Lemma valid_ActingH (n : Z) (L : nat) (J g : R) (mh : Z * R) :
  (1 <= L)%nat -> valid L n -> In mh (ActingH n L J g) -> valid L (fst mh).
Proof.
  intros HL Hn. rewrite ActingH_eq, in_app_iff, in_map_iff. simpl.
  intros [[i [<- Hi]]|[<-|[]]]; simpl; auto.
  apply in_seq in Hi. apply valid_FilpBit; auto; lia.
Qed.

(** * The loops of BuildHNk *)

Lemma idx_eqb (l : list Z) (x : Z) (a c : nat) :
  NoDup l -> index_of x l = Some a ->
  Nat.eqb a c = Nat.ltb c (length l) && Z.eqb (nth c l 0%Z) x.
Proof.
  intros Hnd Ha. apply index_of_first in Ha as [Ha _].
  destruct (Nat.eqb_spec a c) as [<-|Hne].
  - rewrite (nth_error_nth l a 0%Z Ha), Z.eqb_refl, andb_true_r.
    symmetry. apply Nat.ltb_lt. eapply nth_error_some_lt; eauto.
  - symmetry. destruct (Nat.ltb_spec c (length l)) as [Hc|]; auto. simpl.
    apply Z.eqb_neq. intros E. apply Hne.
    rewrite NoDup_nth_error in Hnd. apply Hnd; [eapply nth_error_some_lt; eauto|].
    rewrite Ha, <- E. symmetry. apply nth_error_nth'. auto.
Qed.

Section Loops.

Variable L : nat.
Hypothesis HL : (1 <= L)%nat.
Variables (k : nat) (J g : R).

Lemma sector_basis_NoDup : NoDup (sector_basis L k).
Proof. apply (basis_NoDup L HL). Qed.

Lemma In_sector_basis (n : Z) :
  In n (sector_basis L k) <-> valid L n /\ rep L n = n /\ ((k * period L n) mod L = 0)%nat.
Proof. apply (In_basis L HL). Qed.

Lemma HNk_pair_eq (n m : Z) (h : R) (b : nat) (st : Acc) :
  valid L n -> valid L m ->
  HNk_pair L k (sector_basis L k) n b st (m, h)
  = if existsb (Z.eqb (rep L m)) (sector_basis L k) then
      match index_of (rep L m) (sector_basis L k) with
      | Some a => accumulate st a b (contribution L k h (dist L m) (period L n) (period L m))
      | None => None
      end
    else Some st.
Proof.
  intros Hn Hm. unfold HNk_pair.
  rewrite (proj1 (rep_spec L HL m Hm)), (proj1 (period_spec L HL m Hm)).
  rewrite (proj1 (dist_full L HL m Hm)), (proj1 (period_spec L HL n Hn)).
  pose proof (period_pos L HL m Hm). pose proof (period_pos L HL n Hn).
  replace (period L m - 1 + 1)%nat with (period L m) by lia.
  replace (period L n - 1 + 1)%nat with (period L n) by lia.
  reflexivity.
Qed.

Lemma pair_spec (n m : Z) (h : R) (b : nat) (st : Acc) :
  acc_inv st -> valid L n -> valid L m ->
  exists st', HNk_pair L k (sector_basis L k) n b st (m, h) = Some st' /\
    acc_inv st' /\
    (forall r c, acc_entry st' r c
                 = Cadd (acc_entry st r c) (pair_delta L k (sector_basis L k) n b (m, h) r c)) /\
    (forall a0 b0, (exists p, nth_error (HNk_col st) p = Some a0 /\ nth_error (HNk_row st) p = Some b0) ->
                   (exists p, nth_error (HNk_col st') p = Some a0 /\ nth_error (HNk_row st') p = Some b0)) /\
    (forall a, index_of (rep L m) (sector_basis L k) = Some a ->
       exists p, nth_error (HNk_col st') p = Some a /\ nth_error (HNk_row st') p = Some b).
Proof.
  intros Hst Hn Hm. rewrite HNk_pair_eq by auto.
  destruct (existsb (Z.eqb (rep L m)) (sector_basis L k)) eqn:Ex.
  - apply existsb_eqb_In in Ex.
    destruct (index_of_In _ _ Ex) as [a Ha]. rewrite Ha.
    destruct (accumulate_spec st a b (contribution L k h (dist L m) (period L n) (period L m)) Hst)
      as (st' & E1 & E2 & E3 & [xs [ys [E4 E5]]] & E6).
    exists st'. split; [exact E1|]. split; [exact E2|]. split; [|split].
    + intros r c. unfold acc_entry. rewrite E3. f_equal. unfold pair_delta.
      rewrite (idx_eqb _ _ a c sector_basis_NoDup Ha).
      rewrite andb_assoc. reflexivity.
    + intros a0 b0 [p [P1 P2]]. exists p. rewrite E4, E5.
      split; apply nth_error_app_prefix; auto.
    + intros a' Ha'. injection Ha' as <-. exact E6.
  - exists st. split; [reflexivity|]. split; [exact Hst|]. split; [|split].
    + intros r c. unfold pair_delta.
      destruct (Nat.ltb_spec c (length (sector_basis L k))) as [Hc|];
        [|rewrite andb_false_r; simpl; rewrite Cadd_0_r; reflexivity].
      destruct (Z.eqb_spec (nth c (sector_basis L k) 0%Z) (rep L m)) as [E|];
        [|rewrite !andb_false_r; rewrite Cadd_0_r; reflexivity].
      exfalso. assert (In (rep L m) (sector_basis L k)) as Hin
        by (rewrite <- E; apply nth_In; auto).
      apply existsb_eqb_In in Hin. congruence.
    + auto.
    + intros a Ha. exfalso. apply index_of_first in Ha as [Ha _].
      assert (In (rep L m) (sector_basis L k)) as Hin by (eapply nth_error_In; eauto).
      apply existsb_eqb_In in Hin. congruence.
Qed.

Lemma pairs_spec (n : Z) (b : nat) (l : list (Z * R)) (st : Acc) :
  acc_inv st -> valid L n -> (forall mh, In mh l -> valid L (fst mh)) ->
  exists st', foldM (HNk_pair L k (sector_basis L k) n b) l st = Some st' /\
    acc_inv st' /\
    (forall r c, acc_entry st' r c
                 = Cadd (acc_entry st r c)
                        (Csum (map (fun mh => pair_delta L k (sector_basis L k) n b mh r c) l))) /\
    (forall a0 b0, (exists p, nth_error (HNk_col st) p = Some a0 /\ nth_error (HNk_row st) p = Some b0) ->
                   (exists p, nth_error (HNk_col st') p = Some a0 /\ nth_error (HNk_row st') p = Some b0)) /\
    (forall mh a, In mh l -> index_of (rep L (fst mh)) (sector_basis L k) = Some a ->
       exists p, nth_error (HNk_col st') p = Some a /\ nth_error (HNk_row st') p = Some b).
Proof.
  revert st; induction l as [|[m h] l IH]; intros st Hst Hn Hl.
  - exists st. simpl. split; [reflexivity|]. split; [exact Hst|]. split; [|split].
    + intros r c. rewrite Cadd_0_r. reflexivity.
    + auto.
    + intros mh a [].
  - destruct (pair_spec n m h b st Hst Hn) as (st1 & E1 & I1 & D1 & P1 & T1).
    { apply (Hl (m, h)). left. reflexivity. }
    destruct (IH st1 I1 Hn) as (st2 & E2 & I2 & D2 & P2 & T2).
    { intros mh Hmh. apply Hl. right. exact Hmh. }
    exists st2. cbn [foldM]. rewrite E1. split; [exact E2|]. split; [exact I2|]. split; [|split].
    + intros r c. rewrite D2, D1. symmetry. apply Cadd_assoc.
    + intros a0 b0 H. apply P2, P1, H.
    + intros mh a [<-|Hin] Ha.
      * apply P2. apply T1. exact Ha.
      * apply (T2 mh a Hin Ha).
Qed.

Lemma row_delta (pre l : list Z) (n : Z) (r c : nat) :
  sector_basis L k = pre ++ n :: l ->
  Csum (map (fun mh => pair_delta L k (sector_basis L k) n (length pre) mh r c) (ActingH n L J g))
  = if Nat.eqb (length pre) r then row_sum L k J g (sector_basis L k) r c else C0.
Proof.
  intros EB. destruct (Nat.eqb_spec (length pre) r) as [<-|Hne].
  - unfold row_sum.
    replace (nth (length pre) (sector_basis L k) 0%Z) with n; [reflexivity|].
    rewrite EB, app_nth2, Nat.sub_diag by lia. reflexivity.
  - apply Csum_zero. intros [m h] _. unfold pair_delta.
    replace (Nat.eqb (length pre) r) with false by (symmetry; apply Nat.eqb_neq; auto).
    reflexivity.
Qed.

Lemma states_spec (l pre : list Z) (st : Acc) :
  sector_basis L k = pre ++ l -> acc_inv st ->
  exists st', foldM (HNk_state L k J g (sector_basis L k)) l st = Some st' /\
    acc_inv st' /\
    (forall r c, acc_entry st' r c
                 = Cadd (acc_entry st r c)
                        (if Nat.leb (length pre) r && Nat.ltb r (length pre + length l)
                         then row_sum L k J g (sector_basis L k) r c else C0)) /\
    (forall a0 b0, (exists p, nth_error (HNk_col st) p = Some a0 /\ nth_error (HNk_row st) p = Some b0) ->
                   (exists p, nth_error (HNk_col st') p = Some a0 /\ nth_error (HNk_row st') p = Some b0)) /\
    (forall j, (length pre <= j < length pre + length l)%nat ->
       exists p, nth_error (HNk_col st') p = Some j /\ nth_error (HNk_row st') p = Some j).
Proof.
  revert pre st; induction l as [|n l IH]; intros pre st EB Hst.
  - exists st. simpl. split; [reflexivity|]. split; [exact Hst|]. split; [|split].
    + intros r c. replace (Nat.leb (length pre) r && Nat.ltb r (length pre + 0)) with false.
      * rewrite Cadd_0_r. reflexivity.
      * destruct (Nat.leb_spec (length pre) r), (Nat.ltb_spec r (length pre + 0));
          simpl; auto; lia.
    + auto.
    + intros j Hj. lia.
  - assert (Hn : In n (sector_basis L k)) by (rewrite EB; apply in_elt).
    assert (Hvn : valid L n) by (apply In_sector_basis; auto).
    assert (Hb : index_of n (sector_basis L k) = Some (length pre)).
    { apply index_of_NoDup; [apply sector_basis_NoDup|].
      rewrite EB, nth_error_app2, Nat.sub_diag by lia. reflexivity. }
    destruct (pairs_spec n (length pre) (ActingH n L J g) st Hst Hvn)
      as (st1 & E1 & I1 & D1 & P1 & T1).
    { intros mh Hmh. apply (valid_ActingH n L J g mh HL Hvn Hmh). }
    destruct (IH (pre ++ [n]) st1) as (st2 & E2 & I2 & D2 & P2 & T2); auto.
    { rewrite EB, <- app_assoc. reflexivity. }
    exists st2. simpl. unfold HNk_state at 1. rewrite Hb, E1.
    split; [exact E2|]. split; [exact I2|]. split; [|split].
    + intros r c. rewrite D2, D1, (row_delta pre l n r c EB), <- Cadd_assoc.
      f_equal. rewrite length_app. simpl.
      destruct (Nat.eqb_spec (length pre) r) as [<-|Hne].
      * rewrite Nat.leb_refl.
        replace (Nat.leb (length pre + 1) (length pre)) with false
          by (symmetry; apply Nat.leb_gt; lia).
        replace (Nat.ltb (length pre) (length pre + S (length l))) with true
          by (symmetry; apply Nat.ltb_lt; lia).
        simpl. apply Cadd_0_r.
      * rewrite Cadd_0_l. f_equal.
        destruct (Nat.leb_spec (length pre + 1) r), (Nat.leb_spec (length pre) r),
          (Nat.ltb_spec r (length pre + 1 + length l)), (Nat.ltb_spec r (length pre + S (length l)));
          simpl; auto; lia.
    + intros a0 b0 H. apply P2, P1, H.
    + intros j Hj. destruct (Nat.eq_dec j (length pre)) as [->|Hne].
      * apply P2. apply (T1 (n, diagSum n L J)).
        -- rewrite ActingH_eq. apply in_or_app. right. left. reflexivity.
        -- simpl. replace (rep L n) with n; auto.
           symmetry. apply In_sector_basis. auto.
      * apply T2. rewrite length_app. simpl. lia.
Qed.

Lemma acc_inv_empty : acc_inv (mkAcc [] [] [] []).
Proof.
  unfold acc_inv. simpl. split; [auto|]. split; [auto|]. split.
  - intros a b p H. discriminate.
  - intros p a b H. destruct p; discriminate.
Qed.

Lemma BuildHNk_spec :
  exists H, BuildHNk L k J g = Some H /\
    H_basis H = sector_basis L k /\ H_dim H = length (sector_basis L k) /\
    (forall r c, entry H r c = if Nat.ltb r (length (sector_basis L k))
                               then row_sum L k J g (sector_basis L k) r c else C0) /\
    (forall j, (j < length (sector_basis L k))%nat ->
       exists p, nth_error (H_col H) p = Some j /\ nth_error (H_row H) p = Some j) /\
    length (H_col H) = length (H_val H) /\ length (H_row H) = length (H_val H) /\
    (forall p q a b, nth_error (H_col H) p = Some a -> nth_error (H_row H) p = Some b ->
       nth_error (H_col H) q = Some a -> nth_error (H_row H) q = Some b -> p = q).
Proof.
  destruct (states_spec (sector_basis L k) [] (mkAcc [] [] [] []) eq_refl acc_inv_empty)
    as (st & E1 & (I1 & I2 & I3 & I4) & D & _ & T).
  unfold BuildHNk. rewrite (BuildBasisNk_filter L HL k). fold (sector_basis L k).
  rewrite E1. eexists. split; [reflexivity|]. simpl.
  split; [reflexivity|]. split; [reflexivity|]. split; [|split; [|split; [|split]]]; auto.
  - intros r c. unfold entry. simpl. change (coo_entry _ _ _ r c) with (acc_entry st r c).
    rewrite D. unfold acc_entry. simpl. rewrite Cadd_0_l. reflexivity.
  - intros j Hj. apply T. simpl. lia.
  - intros p q a b Hp1 Hp2 Hq1 Hq2.
    pose proof (I4 p a b Hp1 Hp2). pose proof (I4 q a b Hq1 Hq2). congruence.
Qed.

End Loops.

Lemma contribution_self (L k R0 : nat) (D : R) :
  (1 <= R0)%nat -> contribution L k D 0 R0 R0 = mkC D 0.
Proof.
  intros HR. unfold contribution, Cexp_i, Cscale.
  replace (INR k * INR 0 * 2 * PI / INR L)%R with 0%R by (simpl; unfold Rdiv; ring).
  rewrite cos_0, sin_0. simpl.
  assert (Hs : (0 < sqrt (INR R0))%R) by (apply sqrt_lt_R0, lt_0_INR; lia).
  apply C_ext; simpl; field; lra.
Qed.

Lemma contribution_zero (L k d Rn Rm : nat) : contribution L k 0 d Rn Rm = C0.
Proof. unfold contribution, Cscale. apply C_ext; simpl; ring. Qed.

Lemma coo_entry_none (rows cols : list nat) (vals : list C) (r c : nat) :
  (forall q, nth_error rows q = Some r -> nth_error cols q = Some c -> False) ->
  coo_entry rows cols vals r c = C0.
Proof.
  revert rows cols; induction vals as [|v vals IH]; intros rows cols H;
    destruct rows as [|r0 rows]; destruct cols as [|c0 cols]; simpl; auto.
  destruct (Nat.eqb_spec r0 r), (Nat.eqb_spec c0 c); simpl.
  - exfalso. apply (H 0); simpl; congruence.
  - rewrite Cadd_0_l. apply IH. intros q. apply (H (S q)).
  - rewrite Cadd_0_l. apply IH. intros q. apply (H (S q)).
  - rewrite Cadd_0_l. apply IH. intros q. apply (H (S q)).
Qed.

Lemma coo_entry_unique (rows cols : list nat) (vals : list C) (p r c : nat) (v : C) :
  nth_error rows p = Some r -> nth_error cols p = Some c -> nth_error vals p = Some v ->
  (forall q, nth_error rows q = Some r -> nth_error cols q = Some c -> q = p) ->
  coo_entry rows cols vals r c = v.
Proof.
  revert rows cols vals; induction p as [|p IH]; intros rows cols vals Hr Hc Hv Hu;
    destruct rows as [|r0 rows]; try discriminate;
    destruct cols as [|c0 cols]; try discriminate;
    destruct vals as [|v0 vals]; try discriminate; simpl in *.
  - injection Hr as ->. injection Hc as ->. injection Hv as ->.
    rewrite !Nat.eqb_refl. simpl. rewrite coo_entry_none; [apply Cadd_0_r|].
    intros q H1 H2. specialize (Hu (S q) H1 H2). discriminate.
  - replace (Nat.eqb r0 r && Nat.eqb c0 c) with false.
    + rewrite Cadd_0_l. apply IH; auto.
      intros q H1 H2. specialize (Hu (S q) H1 H2). lia.
    + destruct (Nat.eqb_spec r0 r), (Nat.eqb_spec c0 c); simpl; auto.
      subst. specialize (Hu 0 eq_refl eq_refl). discriminate.
Qed.

Lemma popL_FilpBit (L : nat) (x : Z) (i : nat) :
  (i < L)%nat -> popL L (FilpBit x i) <> popL L x.
Proof.
  intros Hi. unfold popL.
  replace L with (i + S (L - S i))%nat by lia.
  rewrite !seq_app, !filter_app, !length_app. simpl.
  rewrite (filter_ext_in _ (fun j => Z.testbit x (Z.of_nat j)) (seq 0 i)).
  - rewrite (filter_ext_in _ (fun j => Z.testbit x (Z.of_nat j)) (seq (S i) (L - S i))).
    + rewrite FilpBit_bits, Z.eqb_refl by lia.
      destruct (Z.testbit x (Z.of_nat i)); simpl; lia.
    + intros j Hj. apply in_seq in Hj. rewrite FilpBit_bits by lia.
      replace (Z.of_nat j =? Z.of_nat i)%Z with false by (symmetry; apply Z.eqb_neq; lia).
      apply xorb_false_r.
  - intros j Hj. apply in_seq in Hj. rewrite FilpBit_bits by lia.
    replace (Z.of_nat j =? Z.of_nat i)%Z with false by (symmetry; apply Z.eqb_neq; lia).
    apply xorb_false_r.
Qed.

Section Entries.

Variable L : nat.
Hypothesis HL : (1 <= L)%nat.
Variables (k : nat) (J g : R).

Lemma dist_self (n : Z) : valid L n -> rep L n = n -> dist L n = 0%nat.
Proof.
  intros Hn E. unfold dist. rewrite E. unfold Tlist.
  replace (L + 1)%nat with (S L) by lia. cbn [seq map index_of].
  rewrite (RotLBit_rotN L HL n 0) by (auto; lia). rewrite rotN_0, Z.eqb_refl by auto.
  reflexivity.
Qed.

Lemma rep_FilpBit_neq (n : Z) (i : nat) :
  valid L n -> (i < L)%nat -> rep L (FilpBit n i) <> n.
Proof.
  intros Hn Hi E.
  assert (Hf : valid L (FilpBit n i)) by (apply valid_FilpBit; auto).
  destruct (rep_spec L HL (FilpBit n i) Hf) as [_ [[s Es] _]].
  apply (popL_FilpBit L n i Hi).
  rewrite <- (popL_rotN L (FilpBit n i) s HL Hf), <- Es, E. reflexivity.
Qed.

Lemma sector_basis_nth_inj (r c : nat) :
  (r < length (sector_basis L k))%nat -> (c < length (sector_basis L k))%nat ->
  nth r (sector_basis L k) 0%Z = nth c (sector_basis L k) 0%Z -> r = c.
Proof.
  intros Hr Hc E. apply (proj1 (NoDup_nth (sector_basis L k) 0%Z) (sector_basis_NoDup L HL k));
    auto.
Qed.

Lemma In_nth_sector_basis (r : nat) :
  (r < length (sector_basis L k))%nat ->
  valid L (nth r (sector_basis L k) 0%Z) /\ rep L (nth r (sector_basis L k) 0%Z) = nth r (sector_basis L k) 0%Z /\
  ((k * period L (nth r (sector_basis L k) 0%Z)) mod L = 0)%nat.
Proof. intros Hr. apply (In_sector_basis L HL k), nth_In. auto. Qed.

Lemma row_sum_out (r c : nat) :
  (length (sector_basis L k) <= c)%nat -> row_sum L k J g (sector_basis L k) r c = C0.
Proof.
  intros Hc. unfold row_sum. apply Csum_zero. intros [m h] _. unfold pair_delta.
  replace (Nat.ltb c (length (sector_basis L k))) with false
    by (symmetry; apply Nat.ltb_ge; auto).
  rewrite andb_false_r. reflexivity.
Qed.

Lemma row_sum_in (r c : nat) :
  (r < length (sector_basis L k))%nat -> (c < length (sector_basis L k))%nat ->
  row_sum L k J g (sector_basis L k) r c
  = Cadd (flip_part L k J g (nth r (sector_basis L k) 0%Z) (nth c (sector_basis L k) 0%Z))
         (if Nat.eqb r c then mkC (diagSum (nth r (sector_basis L k) 0%Z) L J) 0 else C0).
Proof.
  intros Hr Hc. destruct (In_nth_sector_basis r Hr) as (Hv & Hrep & _).
  set (n := nth r (sector_basis L k) 0%Z) in *.
  unfold row_sum. fold n. rewrite ActingH_eq, map_app, Csum_app. f_equal.
  - unfold flip_part. rewrite map_map. f_equal. apply map_ext. intros i.
    unfold pair_delta. rewrite Nat.eqb_refl.
    replace (Nat.ltb c (length (sector_basis L k))) with true
      by (symmetry; apply Nat.ltb_lt; auto).
    simpl. rewrite Z.eqb_sym. reflexivity.
  - simpl. rewrite Cadd_0_r. unfold pair_delta. rewrite Nat.eqb_refl.
    replace (Nat.ltb c (length (sector_basis L k))) with true
      by (symmetry; apply Nat.ltb_lt; auto).
    simpl. rewrite Hrep.
    destruct (Nat.eqb_spec r c) as [<-|Hne].
    + fold n. rewrite Z.eqb_refl, dist_self by auto.
      apply contribution_self. apply (period_pos L HL n Hv).
    + replace (Z.eqb (nth c (sector_basis L k) 0%Z) n) with false; auto.
      symmetry. apply Z.eqb_neq. intros E. apply Hne.
      apply sector_basis_nth_inj; auto.
Qed.

Lemma flip_part_self (n : Z) : valid L n -> flip_part L k J g n n = C0.
Proof.
  intros Hn. unfold flip_part. apply Csum_zero. intros i Hi. apply in_seq in Hi.
  replace (Z.eqb (rep L (FilpBit n i)) n) with false; auto.
  symmetry. apply Z.eqb_neq. apply rep_FilpBit_neq; auto. lia.
Qed.

Lemma flip_part_g0 (x y : Z) : flip_part L k J 0 x y = C0.
Proof.
  unfold flip_part. apply Csum_zero. intros i _.
  destruct (Z.eqb _ y); auto. rewrite Rmult_0_r. apply contribution_zero.
Qed.

Lemma entry_formula :
  exists H, BuildHNk L k J g = Some H /\
    H_basis H = sector_basis L k /\ H_dim H = length (sector_basis L k) /\
    (forall r c, entry H r c =
       if Nat.ltb r (length (sector_basis L k)) && Nat.ltb c (length (sector_basis L k))
       then Cadd (flip_part L k J g (nth r (sector_basis L k) 0%Z) (nth c (sector_basis L k) 0%Z))
                 (if Nat.eqb r c then mkC (diagSum (nth r (sector_basis L k) 0%Z) L J) 0 else C0)
       else C0) /\
    (forall j, (j < length (sector_basis L k))%nat ->
       exists p, nth_error (H_col H) p = Some j /\ nth_error (H_row H) p = Some j) /\
    length (H_col H) = length (H_val H) /\ length (H_row H) = length (H_val H) /\
    (forall p q a b, nth_error (H_col H) p = Some a -> nth_error (H_row H) p = Some b ->
       nth_error (H_col H) q = Some a -> nth_error (H_row H) q = Some b -> p = q).
Proof.
  destruct (BuildHNk_spec L HL k J g) as (H & E1 & E2 & E3 & E4 & E5).
  exists H. split; [exact E1|]. split; [exact E2|]. split; [exact E3|]. split; [|exact E5].
  intros r c. rewrite E4.
  destruct (Nat.ltb_spec r (length (sector_basis L k))) as [Hr|Hr]; [|reflexivity].
  destruct (Nat.ltb_spec c (length (sector_basis L k))) as [Hc|Hc]; simpl.
  - apply row_sum_in; auto.
  - apply row_sum_out; auto.
Qed.

End Entries.

(** * Counting *)

Lemma length_filter_sum {A : Type} (f : A -> bool) (l : list A) :
  length (filter f l) = list_sum (map (fun x => if f x then 1 else 0) l).
Proof. induction l as [|x l IH]; simpl; auto. destruct (f x); simpl; lia. Qed.

Lemma nsum_ext_in {A : Type} (f g : A -> nat) (l : list A) :
  (forall x, In x l -> f x = g x) -> list_sum (map f l) = list_sum (map g l).
Proof. intros H. rewrite (map_ext_in f g l H). reflexivity. Qed.

Lemma nsum_plus {A : Type} (f g : A -> nat) (l : list A) :
  list_sum (map (fun x => f x + g x) l) = list_sum (map f l) + list_sum (map g l).
Proof. induction l as [|x l IH]; simpl; auto. rewrite IH. lia. Qed.

Lemma nsum_zero {A : Type} (l : list A) : list_sum (map (fun _ => 0) l) = 0.
Proof. induction l; simpl; auto. Qed.

Lemma nsum_swap {A B : Type} (f : A -> B -> nat) (l1 : list A) (l2 : list B) :
  list_sum (map (fun i => list_sum (map (fun s => f i s) l2)) l1)
  = list_sum (map (fun s => list_sum (map (fun i => f i s) l1)) l2).
Proof.
  induction l1 as [|i l1 IH]; simpl.
  - symmetry. apply nsum_zero.
  - rewrite IH, <- nsum_plus. reflexivity.
Qed.

Lemma nsum_ones {A : Type} (l : list A) : list_sum (map (fun _ => 1) l) = length l.
Proof. induction l; simpl; auto. Qed.

Lemma count_eq_out (x a n : nat) :
  ~ (a <= x < a + n) -> length (filter (fun t => Nat.eqb t x) (seq a n)) = 0.
Proof.
  revert a; induction n as [|n IH]; intros a Hx; simpl; auto.
  destruct (Nat.eqb_spec a x); [lia|]. apply IH. lia.
Qed.

Lemma count_eq_in (x a n : nat) :
  a <= x < a + n -> length (filter (fun t => Nat.eqb t x) (seq a n)) = 1.
Proof.
  revert a; induction n as [|n IH]; intros a Hx; simpl; [lia|].
  destruct (Nat.eqb_spec a x) as [<-|].
  - simpl. rewrite count_eq_out; auto. lia.
  - apply IH. lia.
Qed.

Lemma count_mod (q d m : nat) :
  d < q -> length (filter (fun k => Nat.eqb (k mod q) d) (seq 0 (m * q))) = m.
Proof.
  intros Hd. induction m as [|m IH]; auto.
  replace (S m * q) with (m * q + q) by lia.
  rewrite seq_app, filter_app, length_app, IH. simpl.
  rewrite (filter_ext_in _ (fun t => Nat.eqb t (m * q + d))).
  - rewrite count_eq_in by lia. lia.
  - intros t Ht. apply in_seq in Ht.
    replace t with ((t - m * q) + m * q) at 1 by lia.
    rewrite Nat.Div0.mod_add, Nat.mod_small by lia.
    destruct (Nat.eqb_spec (t - m * q) d), (Nat.eqb_spec t (m * q + d)); auto; lia.
Qed.

Lemma count_momenta (L R0 : nat) :
  1 <= L -> 1 <= R0 -> Nat.divide R0 L ->
  length (filter (fun k => Nat.eqb ((k * R0) mod L) 0) (seq 0 L)) = R0.
Proof.
  intros HL HR [q Hq]. assert (Hq1 : 1 <= q) by nia.
  rewrite (filter_ext_in _ (fun k => Nat.eqb (k mod q) 0)).
  - replace (seq 0 L) with (seq 0 (R0 * q)) by (f_equal; lia). apply count_mod. lia.
  - intros k _. pose proof (Nat.div_mod_eq k q) as D.
    pose proof (Nat.mod_upper_bound k q ltac:(lia)).
    replace (k * R0) with (k mod q * R0 + (k / q) * L) by (rewrite Hq; nia).
    rewrite Nat.Div0.mod_add, Nat.mod_small by nia.
    destruct (Nat.eqb_spec (k mod q * R0) 0), (Nat.eqb_spec (k mod q) 0); auto; nia.
Qed.

Lemma nsum_indicator_unique (x : Z) (l : list Z) :
  NoDup l -> In x l -> list_sum (map (fun y => if Z.eqb x y then 1 else 0) l) = 1.
Proof.
  induction 1 as [|y l Hy Hnd IH]; simpl; [contradiction|].
  intros [->|Hin].
  - rewrite Z.eqb_refl.
    rewrite (nsum_ext_in _ (fun _ => 0)); [rewrite nsum_zero; auto|].
    intros z Hz. destruct (Z.eqb_spec x z); congruence.
  - destruct (Z.eqb_spec x y); [subst; contradiction|]. apply IH. auto.
Qed.

Section Partition.

Variable L : nat.
Hypothesis HL : 1 <= L.

Lemma orbit_count (y : Z) :
  valid L y -> rep L y = y ->
  length (filter (fun n => Z.eqb (rep L n) y) (BuildBasisN L)) = period L y.
Proof.
  intros Hy Hry. destruct (period_spec L HL y Hy) as [_ HP]. pose proof HP as [HR _].
  transitivity (length (map (rotN L y) (seq 0 (period L y))));
    [|rewrite length_map, length_seq; reflexivity].
  apply Permutation_length. apply NoDup_Permutation.
  - apply NoDup_filter. unfold BuildBasisN.
    apply NoDup_map_NoDup_ForallPairs; [|apply seq_NoDup]. intros a b _ _. lia.
  - apply NoDup_map_NoDup_ForallPairs; [|apply seq_NoDup].
    intros s t Hs Ht E. apply in_seq in Hs, Ht.
    apply (rotN_eq_iff L HL y (period L y) s t Hy HP) in E.
    rewrite !Nat.mod_small in E by lia. auto.
  - intros n. rewrite filter_In, In_BuildBasisN by auto. rewrite Z.eqb_eq, in_map_iff.
    split.
    + intros [Hn E]. destruct (dist_full L HL n Hn) as [_ [Hd _]].
      rewrite E in Hd.
      exists ((L - dist L n mod L) mod period L y). split.
      * rewrite <- (rotN_mod_period L HL y (period L y)) by auto.
        rewrite <- Hd. apply rotN_inv; auto.
      * apply in_seq. pose proof (Nat.mod_upper_bound (L - dist L n mod L) (period L y)). lia.
    + intros [s [<- _]]. split; [apply valid_rotN; auto|].
      rewrite rep_rotN; auto.
Qed.

Lemma orbit_count_other (y : Z) :
  rep L y <> y -> length (filter (fun n => Z.eqb (rep L n) y) (BuildBasisN L)) = 0.
Proof.
  intros Hy. rewrite length_filter_sum.
  rewrite (nsum_ext_in _ (fun _ => 0)); [apply nsum_zero|].
  intros n Hn. apply In_BuildBasisN in Hn; auto.
  destruct (Z.eqb_spec (rep L n) y) as [E|]; auto.
  exfalso. apply Hy. rewrite <- E. apply rep_rep; auto.
Qed.

Lemma sector_sizes :
  list_sum (map (fun k => length (sector_basis L k)) (seq 0 L)) = 2 ^ L.
Proof.
  unfold sector_basis. rewrite (nsum_ext_in _ (fun k => list_sum (map
     (fun n => if in_sector L k n then 1 else 0) (BuildBasisN L))))
    by (intros; apply length_filter_sum).
  rewrite nsum_swap.
  rewrite (nsum_ext_in _ (fun n => if Z.eqb (rep L n) n then period L n else 0)).
  2:{ intros n Hn. apply In_BuildBasisN in Hn; auto. unfold in_sector.
      destruct (Z.eqb_spec (rep L n) n); simpl.
      - rewrite <- length_filter_sum. apply count_momenta; auto.
        + apply period_pos; auto.
        + apply (period_divides_L L HL n); auto. apply period_spec; auto.
      - apply nsum_zero. }
  rewrite (nsum_ext_in _ (fun y => length (filter (fun n => Z.eqb (rep L n) y) (BuildBasisN L)))).
  2:{ intros y Hy. apply In_BuildBasisN in Hy; auto.
      destruct (Z.eqb_spec (rep L y) y) as [E|E].
      - symmetry. apply orbit_count; auto.
      - symmetry. apply orbit_count_other; auto. }
  rewrite (nsum_ext_in _ (fun y => list_sum (map (fun n => if Z.eqb (rep L n) y then 1 else 0) (BuildBasisN L))))
    by (intros; apply length_filter_sum).
  rewrite nsum_swap.
  rewrite (nsum_ext_in _ (fun _ => 1)).
  - rewrite nsum_ones. unfold BuildBasisN. rewrite length_map, length_seq. reflexivity.
  - intros n Hn. apply In_BuildBasisN in Hn; auto. apply nsum_indicator_unique.
    + unfold BuildBasisN. apply NoDup_map_NoDup_ForallPairs; [|apply seq_NoDup].
      intros a b _ _. lia.
    + apply In_BuildBasisN; auto. apply valid_rep; auto.
Qed.

End Partition.


(** * Further lemmas: bit helpers, ActingH symmetries, triplet bounds, Task *)

Lemma popL_FilpBit_eq (L : nat) (x : Z) (i : nat) :
  (i < L)%nat ->
  popL L (FilpBit x i) = if Z.testbit x (Z.of_nat i) then (popL L x - 1)%nat else (popL L x + 1)%nat.
Proof.
  intros Hi. unfold popL.
  replace L with (i + S (L - S i))%nat by lia.
  rewrite !seq_app, !filter_app, !length_app. simpl.
  rewrite (filter_ext_in _ (fun j => Z.testbit x (Z.of_nat j)) (seq 0 i)).
  - rewrite (filter_ext_in _ (fun j => Z.testbit x (Z.of_nat j)) (seq (S i) (L - S i))).
    + rewrite FilpBit_bits, Z.eqb_refl by lia.
      destruct (Z.testbit x (Z.of_nat i)); simpl; lia.
    + intros j Hj. apply in_seq in Hj. rewrite FilpBit_bits by lia.
      replace (Z.of_nat j =? Z.of_nat i)%Z with false by (symmetry; apply Z.eqb_neq; lia).
      apply xorb_false_r.
  - intros j Hj. apply in_seq in Hj. rewrite FilpBit_bits by lia.
    replace (Z.of_nat j =? Z.of_nat i)%Z with false by (symmetry; apply Z.eqb_neq; lia).
    apply xorb_false_r.
Qed.

Lemma CountBit_Zabs (i : Z) : CountBit i = CountBit (Z.abs i).
Proof.
  destruct i as [|p|p]; reflexivity.
Qed.

Lemma valid_zero (x : Z) : valid 0 x -> x = 0%Z.
Proof. unfold valid. simpl. lia. Qed.

Lemma diagSum_rotN (L : nat) (n : Z) (s : nat) (J : R) :
  (1 <= L)%nat -> valid L n -> diagSum (rotN L n s) L J = diagSum n L J.
Proof.
  intros HL Hn. unfold diagSum.
  set (tau := fun i => ((i + (L - s mod L)) mod L)%nat).
  set (f := fun i => if Bool.eqb (Z.testbit n (Z.of_nat i))
                                 (Z.testbit n (Z.of_nat ((i + 1) mod L)))
                     then (- J)%R else J).
  assert (Hb : forall i, (i < L)%nat ->
            Z.testbit (rotN L n s) (Z.of_nat i) = Z.testbit n (Z.of_nat (tau i))).
  { intros i Hi. rewrite rotN_bits by (auto; lia).
    replace (Z.of_nat i <? Z.of_nat L)%Z with true by (symmetry; apply Z.ltb_lt; lia).
    unfold tau. rewrite shift_idx_Z by auto. reflexivity. }
  transitivity (Rsum (map (fun i => f (tau i)) (seq 0 L))).
  - apply Rsum_ext_in. intros i Hi. apply in_seq in Hi.
    assert (Hi1 : ((i + 1) mod L < L)%nat) by (apply Nat.mod_upper_bound; lia).
    unfold f. rewrite (Hb i), (Hb ((i + 1) mod L)) by lia.
    replace (tau ((i + 1) mod L)) with ((tau i + 1) mod L)%nat; [reflexivity|].
    unfold tau. rewrite !Nat.Div0.add_mod_idemp_l. f_equal. lia.
  - apply Rsum_reindex.
    + intros x Hx. apply Nat.mod_upper_bound. lia.
    + intros x y Hx Hy E. apply (shift_mod_inj L (L - s mod L)); auto.
Qed.

Lemma diagSum_complement (L : nat) (n : Z) (J : R) :
  diagSum (Z.lxor n (2 ^ Z.of_nat L - 1)) L J = diagSum n L J.
Proof.
  unfold diagSum. apply Rsum_ext_in. intros i Hi. apply in_seq in Hi.
  assert (Hi1 : ((i + 1) mod L < L)%nat) by (apply Nat.mod_upper_bound; lia).
  assert (Hc : forall j, (j < L)%nat ->
            Z.testbit (Z.lxor n (2 ^ Z.of_nat L - 1)) (Z.of_nat j) = negb (Z.testbit n (Z.of_nat j))).
  { intros j Hj. replace (2 ^ Z.of_nat L - 1)%Z with (Z.ones (Z.of_nat L))
      by (rewrite Z.ones_equiv; lia).
    rewrite Z.lxor_spec, Z.testbit_ones_nonneg by lia.
    replace (Z.of_nat j <? Z.of_nat L)%Z with true by (symmetry; apply Z.ltb_lt; lia).
    apply xorb_true_r. }
  rewrite (Hc i), (Hc ((i + 1) mod L)) by lia.
  destruct (Z.testbit n (Z.of_nat i)), (Z.testbit n (Z.of_nat ((i + 1) mod L))); reflexivity.
Qed.

Lemma list_min_rep (L : nat) (n : Z) :
  1 <= L -> valid L n -> (list_min (Tlist L n) = Some n <-> rep L n = n).
Proof.
  intros HL Hn. destruct (rep_spec L HL n Hn) as [E _]. rewrite E.
  split; [intros H; injection H; auto | intros ->; reflexivity].
Qed.

Lemma foldM_inv {A B : Type} (P : A -> Prop) (f : A -> B -> option A) (l : list B) (a a' : A) :
  P a -> (forall x s s', In x l -> P s -> f s x = Some s' -> P s') ->
  foldM f l a = Some a' -> P a'.
Proof.
  revert a; induction l as [|x l IH]; intros a Ha Hf; simpl.
  - intros E. injection E as <-. exact Ha.
  - destruct (f a x) as [s|] eqn:E; [|discriminate].
    apply IH; [apply (Hf x a s); auto; left; auto|].
    intros y s1 s2 Hy. apply Hf. right. exact Hy.
Qed.

Lemma Forall_list_set {A : Type} (P : A -> Prop) (l : list A) (p : nat) (x : A) :
  Forall P l -> P x -> Forall P (list_set l p x).
Proof.
  intros Hl Hx. revert p; induction Hl as [|y l Hy Hl IH]; intros p; destruct p; simpl;
    constructor; auto.
Qed.

Lemma accumulate_bounded (d a b : nat) (v : C) (st st' : Acc) :
  a < d -> b < d -> acc_bounded d st -> accumulate st a b v = Some st' -> acc_bounded d st'.
Proof.
  intros Ha Hb [Hc Hr]. unfold accumulate.
  destruct (pos_lookup (a, b) (pos st)) as [p|].
  - destruct (nth_error (HNk_val st) p); [|discriminate].
    intros E. injection E as <-. split; auto.
  - intros E. injection E as <-. split; simpl; apply Forall_app; auto.
Qed.

Lemma index_of_lt (x : Z) (l : list Z) (i : nat) : index_of x l = Some i -> i < length l.
Proof. intros H. apply index_of_first in H as [H _]. eapply nth_error_some_lt; eauto. Qed.

Lemma BuildHNk_bounded (L k : nat) (J g : R) (H : HNk) :
  BuildHNk L k J g = Some H ->
  Forall (fun a => a < H_dim H) (H_col H) /\ Forall (fun b => b < H_dim H) (H_row H).
Proof.
  unfold BuildHNk. destruct (BuildBasisNk L k) as [basisNk|]; [|discriminate].
  destruct (foldM _ basisNk _) as [st|] eqn:E; [|discriminate].
  intros F. injection F as <-. simpl.
  assert (H0 : acc_bounded (length basisNk) (mkAcc [] [] [] [])) by (split; constructor).
  apply (foldM_inv (acc_bounded (length basisNk)) _ _ _ _ H0) in E; [exact E|].
  intros n s s' _ Hs. unfold HNk_state.
  destruct (index_of n basisNk) as [b|] eqn:Eb; [|discriminate].
  apply index_of_lt in Eb.
  apply foldM_inv; [exact Hs|].
  intros [m h] t t' _ Ht. unfold HNk_pair.
  destruct (list_min (Tlist L m)) as [m_rs|]; [|discriminate].
  destruct (index_of m (tl (Tlist L m))); [|discriminate].
  destruct (index_of m_rs (Tlist L m)); [|discriminate].
  destruct (index_of n (tl (Tlist L n))); [|discriminate].
  destruct (existsb (Z.eqb m_rs) basisNk).
  - destruct (index_of m_rs basisNk) as [a|] eqn:Ea; [|discriminate].
    apply index_of_lt in Ea. apply accumulate_bounded; auto.
  - intros F. injection F as <-. exact Ht.
Qed.

Lemma sin_theta_zero (L k d : nat) :
  (1 <= L)%nat -> ((2 * k) mod L = 0)%nat ->
  sin (INR k * INR d * 2 * PI / INR L) = 0%R.
Proof.
  intros HL Hk. apply sin_eq_0_1.
  pose proof (Nat.div_mod_eq (2 * k) L) as D. rewrite Hk, Nat.add_0_r in D.
  exists (Z.of_nat ((2 * k) / L * d)). rewrite <- INR_IZR_INZ, mult_INR.
  assert (HL' : INR L <> 0%R) by (apply not_0_INR; lia).
  assert (E : (INR k * 2)%R = (INR L * INR ((2 * k) / L))%R).
  { rewrite <- mult_INR. rewrite <- D. rewrite mult_INR. simpl. lra. }
  replace (INR k * INR d * 2 * PI / INR L)%R with ((INR k * 2) * INR d * PI / INR L)%R
    by (unfold Rdiv; ring).
  rewrite E. field. exact HL'.
Qed.

Lemma BuildHNk_real_values (L k : nat) (J g : R) (H : HNk) :
  (1 <= L)%nat -> ((2 * k) mod L = 0)%nat ->
  BuildHNk L k J g = Some H -> Forall (fun v => Im v = 0%R) (H_val H).
Proof.
  intros HL Hk. unfold BuildHNk. destruct (BuildBasisNk L k) as [basisNk|]; [|discriminate].
  destruct (foldM _ basisNk _) as [st|] eqn:E; [|discriminate].
  intros F. injection F as <-. simpl.
  apply (foldM_inv (fun st => Forall (fun v => Im v = 0%R) (HNk_val st)) _ _ (mkAcc [] [] [] []))
    in E; [exact E| constructor |].
  intros n s s' _ Hs. unfold HNk_state.
  destruct (index_of n basisNk) as [b|]; [|discriminate].
  apply (foldM_inv (fun st => Forall (fun v => Im v = 0%R) (HNk_val st))); [exact Hs|].
  intros [m h] t t' _ Ht. unfold HNk_pair.
  destruct (list_min (Tlist L m)) as [m_rs|]; [|discriminate].
  destruct (index_of m (tl (Tlist L m))); [|discriminate].
  destruct (index_of m_rs (Tlist L m)) as [d|]; [|discriminate].
  destruct (index_of n (tl (Tlist L n))); [|discriminate].
  destruct (existsb (Z.eqb m_rs) basisNk).
  - destruct (index_of m_rs basisNk) as [a|]; [|discriminate].
    set (v := contribution _ _ _ _ _ _).
    assert (Hv : Im v = 0%R).
    { unfold v, contribution, Cscale, Cexp_i. simpl. rewrite sin_theta_zero by auto. ring. }
    unfold accumulate. destruct (pos_lookup (a, b) (pos t)) as [p|].
    + destruct (nth_error (HNk_val t) p) as [x|] eqn:Ex; [|discriminate].
      intros F. injection F as <-. simpl. apply Forall_list_set; auto.
      unfold Cadd. cbn [Im]. rewrite Hv. rewrite Forall_forall in Ht.
      rewrite (Ht x) by (eapply nth_error_In; eauto). ring.
    + intros F. injection F as <-. simpl. apply Forall_app; auto.
  - intros F. injection F as <-. exact Ht.
Qed.

Lemma foldM_app {A B : Type} (f : A -> B -> option A) (l1 l2 : list B) (a : A) :
  foldM f (l1 ++ l2) a = match foldM f l1 a with Some a' => foldM f l2 a' | None => None end.
Proof.
  revert a; induction l1 as [|x l1 IH]; intros a; simpl; auto.
  destruct (f a x); auto.
Qed.

Lemma coo_entry_app2 (rows1 cols1 rows2 cols2 : list nat) (vals1 vals2 : list C) (r c : nat) :
  length rows1 = length vals1 -> length cols1 = length vals1 ->
  coo_entry (rows1 ++ rows2) (cols1 ++ cols2) (vals1 ++ vals2) r c
  = Cadd (coo_entry rows1 cols1 vals1 r c) (coo_entry rows2 cols2 vals2 r c).
Proof.
  revert rows1 cols1; induction vals1 as [|v vals1 IH]; intros rows1 cols1 Hr Hc.
  - destruct rows1; [|discriminate]. destruct cols1; [|discriminate].
    simpl. rewrite Cadd_0_l. reflexivity.
  - destruct rows1 as [|r0 rows1]; [discriminate|].
    destruct cols1 as [|c0 cols1]; [discriminate|].
    simpl in *. rewrite IH by lia. apply Cadd_assoc.
Qed.

Lemma coo_entry_shift (rows cols : list nat) (vals : list C) (o x y : nat) :
  coo_entry (map (fun p => p + o) rows) (map (fun p => p + o) cols) vals x y
  = if Nat.leb o x && Nat.leb o y then coo_entry rows cols vals (x - o) (y - o) else C0.
Proof.
  revert rows cols; induction vals as [|v vals IH]; intros rows cols;
    destruct rows as [|r0 rows]; destruct cols as [|c0 cols]; simpl;
    try (destruct (_ && _); reflexivity).
  rewrite IH.
  destruct (Nat.leb_spec o x), (Nat.leb_spec o y); simpl.
  - f_equal. f_equal.
    destruct (Nat.eqb_spec (r0 + o) x), (Nat.eqb_spec r0 (x - o)); try lia;
    destruct (Nat.eqb_spec (c0 + o) y), (Nat.eqb_spec c0 (y - o)); try lia; reflexivity.
  - rewrite Cadd_0_r. destruct (Nat.eqb_spec (c0 + o) y); [lia|]. rewrite andb_false_r. reflexivity.
  - rewrite Cadd_0_r. destruct (Nat.eqb_spec (r0 + o) x); [lia|]. reflexivity.
  - rewrite Cadd_0_r. destruct (Nat.eqb_spec (r0 + o) x); [lia|]. reflexivity.
Qed.

Lemma coo_entry_swap (rows cols : list nat) (vals : list C) (r c : nat) :
  coo_entry rows cols vals r c = coo_entry cols rows vals c r.
Proof.
  revert rows cols; induction vals as [|v vals IH]; intros rows cols;
    destruct rows as [|r0 rows]; destruct cols as [|c0 cols]; simpl; auto.
  rewrite IH, andb_comm. reflexivity.
Qed.

Lemma Cconj_Csum (l : list C) : Cconj (Csum l) = Csum (map Cconj l).
Proof.
  induction l as [|z l IH]; simpl; [apply Cconj_C0|]. rewrite Cconj_add, IH. reflexivity.
Qed.

Lemma Csum_indicator (E : C) (k n : nat) (f : nat -> C) :
  k < n -> (forall j, j < n -> j <> k -> f j = C0) -> f k = E ->
  Csum (map f (seq 0 n)) = E.
Proof.
  intros Hk Hf Ek. replace n with (k + (1 + (n - S k))) by lia.
  rewrite !seq_app, !map_app, !Csum_app. simpl.
  rewrite (Csum_zero f (seq 0 k)), (Csum_zero f (seq (k + 1) (n - S k))).
  - rewrite Ek, Cadd_0_l, !Cadd_0_r. reflexivity.
  - intros j Hj. apply in_seq in Hj. apply Hf; lia.
  - intros j Hj. apply in_seq in Hj. apply Hf; lia.
Qed.

Lemma Task_offset_S (L : nat) (J g : R) (j : nat) :
  Task_offset L J g (S j) = Task_offset L J g j + Task_dim L J g j.
Proof.
  unfold Task_offset. rewrite seq_S, map_app, list_sum_app. simpl. lia.
Qed.

Lemma Task_offset_mono (L : nat) (J g : R) (j j' : nat) : j <= j' -> Task_offset L J g j <= Task_offset L J g j'.
Proof.
  induction 1 as [|j' Hj IH]; auto. rewrite Task_offset_S. lia.
Qed.

Section TaskLoop.

Variable L : nat.
Hypothesis HL : 1 <= L.
Variables J g : R.

Lemma Task_HNk (j : nat) :
  exists H, BuildHNk L j J g = Some H /\ H_dim H = length (sector_basis L j) /\
    length (H_col H) = length (H_val H) /\ length (H_row H) = length (H_val H) /\
    Forall (fun a => a < H_dim H) (H_col H) /\ Forall (fun b => b < H_dim H) (H_row H).
Proof.
  destruct (BuildHNk_spec L HL j J g) as (H & E & _ & D & _ & _ & Lc & Lr & _).
  destruct (BuildHNk_bounded L j J g H E) as [Bc Br].
  exists H. auto 7.
Qed.

Lemma Task_dim_eq (j : nat) : Task_dim L J g j = length (sector_basis L j).
Proof.
  destruct (Task_HNk j) as (H & E & D & _). unfold Task_dim. rewrite E. exact D.
Qed.

Lemma Task_block_out (j x y : nat) :
  ~ (x < Task_dim L J g j /\ y < Task_dim L J g j) -> Task_block L J g j x y = C0.
Proof.
  intros Hxy. destruct (entry_formula L HL j J g) as (H & E & _ & D & EF & _).
  unfold Task_block. rewrite E, EF. rewrite Task_dim_eq in Hxy.
  destruct (Nat.ltb_spec y (length (sector_basis L j))),
    (Nat.ltb_spec x (length (sector_basis L j))); simpl; auto. lia.
Qed.

Lemma Task_block_herm (j x y : nat) :
  Task_block L J g j y x = Cconj (Task_block L J g j x y).
Proof.
  destruct (entry_formula L HL j J g) as (H & E1 & _ & _ & EF & _).
  unfold Task_block. rewrite E1, !EF.
  rewrite (andb_comm (Nat.ltb y _)).
  destruct (Nat.ltb_spec x (length (sector_basis L j))) as [Ha|Ha];
  destruct (Nat.ltb_spec y (length (sector_basis L j))) as [Hb|Hb]; simpl;
    try (symmetry; apply Cconj_C0).
  destruct (In_nth_sector_basis L HL j x Ha) as (Va & Ra & Ka).
  destruct (In_nth_sector_basis L HL j y Hb) as (Vb & Rb & Kb).
  rewrite Cconj_add. f_equal.
  - apply flip_part_herm; auto.
  - destruct (Nat.eqb_spec x y) as [<-|Hne];
      [rewrite Nat.eqb_refl; apply C_ext; simpl; lra|].
    replace (Nat.eqb y x) with false by (symmetry; apply Nat.eqb_neq; auto).
    symmetry. apply Cconj_C0.
Qed.

Lemma Task_loop (m : nat) :
  exists t, foldM (Task_step L J g) (seq 0 m) (mkTask [] [] [] 0) = Some t /\
    count t = Task_offset L J g m /\
    length (Hx t) = length (Hn t) /\ length (Hy t) = length (Hn t) /\
    Forall (fun x => x < count t) (Hx t) /\ Forall (fun y => y < count t) (Hy t) /\
    (forall x y, Ham_entry t x y = Task_sum L J g m x y).
Proof.
  induction m as [|m IH].
  - eexists. split; [reflexivity|]. simpl. auto 7.
  - destruct IH as (t & E & Ec & Lx & Ly & Bx & By & Et).
    destruct (Task_HNk m) as (H & EH & D & Lc & Lr & Bc & Br).
    rewrite seq_S, foldM_app, E. simpl. unfold Task_step at 1. rewrite EH.
    eexists. split; [reflexivity|]. simpl.
    assert (Hdm : Task_dim L J g m = H_dim H) by (unfold Task_dim; rewrite EH; reflexivity).
    split; [rewrite Task_offset_S, Ec, Hdm; reflexivity|].
    split; [rewrite !length_app, length_map; lia|].
    split; [rewrite !length_app, length_map; lia|].
    split; [|split].
    + apply Forall_app. split.
      * eapply Forall_impl; [|exact Bx]. intros x Hx'. simpl in Hx'. lia.
      * apply Forall_map. eapply Forall_impl; [|exact Bc]. intros a Ha. simpl in Ha. lia.
    + apply Forall_app. split.
      * eapply Forall_impl; [|exact By]. intros x Hx'. simpl in Hx'. lia.
      * apply Forall_map. eapply Forall_impl; [|exact Br]. intros a Ha. simpl in Ha. lia.
    + intros x y. unfold Ham_entry. simpl.
      rewrite coo_entry_app2 by lia. fold (Ham_entry t x y). rewrite Et.
      unfold Task_sum. rewrite seq_S, map_app, Csum_app. f_equal. simpl.
      rewrite Cadd_0_r, coo_entry_shift, <- Ec.
      destruct (_ && _); auto.
      unfold Task_block. rewrite EH. unfold entry. apply coo_entry_swap.
Qed.

End TaskLoop.

(** * Claims *)

(** C3: for [L >= 1] and [k] in [0, L), [BuildBasisNk L k] contains a state
    [n] iff [0 <= n < 2^L], [n] is the minimum of its [L] cyclic left
    rotations, and [(k * R) mod L = 0] for the period [R] of [n] (the
    smallest [r] in [1, L] with [RotLBit n L r = n]); and the list is
    strictly ascending. *)
Theorem BuildBasisNk_members (L k : nat) (HL : 1 <= L) (Hk : k < L) :
  exists basisNk, BuildBasisNk L k = Some basisNk /\
  (forall n, In n basisNk <->
     (0 <= n < 2 ^ Z.of_nat L)%Z /\
     list_min (map (fun s => RotLBit n L s) (seq 0 L)) = Some n /\
     (exists R, 1 <= R <= L /\ RotLBit n L R = n /\
        (forall r, 1 <= r < R -> RotLBit n L r <> n) /\ (k * R) mod L = 0)) /\
  StronglySorted Z.lt basisNk.
Proof.
  exists (filter (in_sector L k) (BuildBasisN L)).
  split; [apply BuildBasisNk_filter; auto|]. split; [|apply (basis_sorted L HL)].
  intros n. rewrite (In_basis L HL k). split.
  - intros [Hn [Hr Hk']]. split; [exact Hn|]. split; [apply rep_self_iff; auto|].
    exists (period L n). split; [apply period_pos; auto|].
    destruct (period_spec L HL n Hn) as [_ HP].
    apply (is_period_RotLBit L HL n) in HP as [_ [E M]]; auto.
  - intros [Hn [Hr [R [HR [E [M Hk']]]]]]. split; [exact Hn|].
    split; [apply rep_self_iff; auto|].
    assert (HP : is_period L n R) by (apply is_period_RotLBit; auto).
    rewrite (period_unique L HL n (period L n) R); auto.
    apply (period_spec L HL n); auto.
Qed.

Lemma BuildBasisNk_members_witness :
  (1 <= 4 /\ 1 < 4) /\
  exists basisNk, BuildBasisNk 4 1 = Some basisNk /\
  (forall n, In n basisNk <->
     (0 <= n < 2 ^ Z.of_nat 4)%Z /\
     list_min (map (fun s => RotLBit n 4 s) (seq 0 4)) = Some n /\
     (exists R, 1 <= R <= 4 /\ RotLBit n 4 R = n /\
        (forall r, 1 <= r < R -> RotLBit n 4 r <> n) /\ (1 * R) mod 4 = 0)) /\
  StronglySorted Z.lt basisNk.
Proof. split; [lia|]. apply (BuildBasisNk_members 4 1); lia. Defined.

(** C4: for [L >= 1] and [0 <= n < 2^L], rotating by [L] returns [n], so
    the period search [Tlist[1:].index(n)] succeeds; the period [R] it
    yields lies in [1, L], is the smallest such rotation count, and
    divides [L]. *)
Theorem period_well_defined (L : nat) (n : Z) (HL : 1 <= L)
    (Hn : (0 <= n < 2 ^ Z.of_nat L)%Z) :
  RotLBit n L L = n /\
  exists R, index_of n (tl (Tlist L n)) = Some (R - 1) /\ 1 <= R <= L /\
    RotLBit n L R = n /\ (forall r, 1 <= r < R -> RotLBit n L r <> n) /\
    Nat.divide R L.
Proof.
  assert (Hv : valid L n) by exact Hn. split.
  - rewrite RotLBit_rotN by (auto; lia). apply rotN_L; auto.
  - destruct (period_index L HL n Hv) as [R [E HP]]. exists R. split; [exact E|].
    pose proof HP as HP'.
    apply (is_period_RotLBit L HL n) in HP' as [H1 [H2 H3]]; auto.
    split; [exact H1|]. split; [exact H2|]. split; [exact H3|].
    apply (period_divides_L L HL n); auto.
Qed.

Lemma period_well_defined_witness :
  RotLBit 5 4 4 = 5%Z /\
  exists R, index_of 5 (tl (Tlist 4 5)) = Some (R - 1) /\ 1 <= R <= 4 /\
    RotLBit 5 4 R = 5%Z /\ (forall r, 1 <= r < R -> RotLBit 5 4 r <> 5%Z) /\
    Nat.divide R 4.
Proof. apply (period_well_defined 4 5); [lia | vm_compute; split; congruence]. Defined.

(** C6: for [0 <= n < 2^L] and [s] in [0, L], [RotLBit n L s] is
    [(PickBit(n, 0, L - s) << s) + (n >> (L - s))], and [RotRBit] undoes it:
    [RotRBit (RotLBit n L s) L s = n]. *)
Theorem RotLBit_formula_roundtrip (L s : nat) (n : Z)
    (Hn : (0 <= n < 2 ^ Z.of_nat L)%Z) (Hs : s <= L) :
  RotLBit n L s
  = (Z.shiftl (PickBit n 0 (Z.of_nat L - Z.of_nat s)) (Z.of_nat s)
     + Z.shiftr n (Z.of_nat L - Z.of_nat s))%Z /\
  RotRBit (RotLBit n L s) L s = n.
Proof.
  split; [reflexivity|].
  destruct L as [|L'].
  - assert (s = 0) as -> by lia. simpl in Hn. assert (n = 0%Z) as -> by lia.
    reflexivity.
  - assert (HL : 1 <= S L') by lia. assert (Hv : valid (S L') n) by exact Hn.
    rewrite RotRBit_as_RotLBit by auto.
    rewrite (RotLBit_rotN (S L') HL n s) by auto.
    rewrite RotLBit_rotN by (auto using valid_rotN; lia).
    rewrite rotN_add by auto. replace (s + (S L' - s)) with (S L') by lia.
    apply rotN_L; auto.
Qed.

Lemma RotLBit_formula_roundtrip_witness :
  ((0 <= 6 < 2 ^ Z.of_nat 4)%Z /\ 3 <= 4) /\
  RotLBit 6 4 3
  = (Z.shiftl (PickBit 6 0 (Z.of_nat 4 - Z.of_nat 3)) (Z.of_nat 3)
     + Z.shiftr 6 (Z.of_nat 4 - Z.of_nat 3))%Z /\
  RotRBit (RotLBit 6 4 3) 4 3 = 6%Z.
Proof.
  split; [split; [vm_compute; split; congruence | lia]|].
  apply (RotLBit_formula_roundtrip 4 3 6); [vm_compute; split; congruence | lia].
Defined.

(** C10: for [0 <= n < 2^L] and [s] in [0, L], [RotLBit n L s] is again in
    [0, 2^L) and has the same [CountBit] as [n]; so does the representative
    [min(Tlist)] of [n]. *)
Theorem RotLBit_closed_CountBit (L s : nat) (n : Z)
    (Hn : (0 <= n < 2 ^ Z.of_nat L)%Z) (Hs : s <= L) :
  (0 <= RotLBit n L s < 2 ^ Z.of_nat L)%Z /\
  CountBit (RotLBit n L s) = CountBit n /\
  (forall r, list_min (Tlist L n) = Some r -> CountBit r = CountBit n).
Proof.
  destruct L as [|L'].
  - assert (s = 0) as -> by lia. simpl in Hn. assert (n = 0%Z) as -> by lia.
    split; [vm_compute; split; congruence|]. split; [reflexivity|].
    intros r E. vm_compute in E. injection E as <-. reflexivity.
  - assert (HL : 1 <= S L') by lia. assert (Hv : valid (S L') n) by exact Hn.
    assert (Hr : valid (S L') (RotLBit n (S L') s)) by (apply valid_RotLBit; auto).
    split; [exact Hr|]. split.
    + rewrite !(CountBit_popL (S L')) by auto.
      rewrite RotLBit_rotN by auto. apply popL_rotN; auto.
    + intros r E. apply list_min_spec in E as [Hin _].
      apply In_Tlist in Hin as [t ->]; auto.
      rewrite !(CountBit_popL (S L')) by (auto using valid_rotN).
      apply popL_rotN; auto.
Qed.

Lemma RotLBit_closed_CountBit_witness :
  ((0 <= 6 < 2 ^ Z.of_nat 4)%Z /\ 3 <= 4) /\
  (0 <= RotLBit 6 4 3 < 2 ^ Z.of_nat 4)%Z /\
  CountBit (RotLBit 6 4 3) = CountBit 6 /\
  (forall r, list_min (Tlist 4 6) = Some r -> CountBit r = CountBit 6).
Proof.
  split; [split; [vm_compute; split; congruence | lia]|].
  apply (RotLBit_closed_CountBit 4 3 6); [vm_compute; split; congruence | lia].
Defined.

(** C1: for [L >= 1] and every [k], [J], [g], [BuildHNk L k J g] returns a
    matrix, and in exact arithmetic it is Hermitian: the entry at row [b],
    column [a] is the complex conjugate of the entry at row [a], column [b],
    for every pair of indices (entries outside the basis are zero). *)
Theorem BuildHNk_hermitian (L k : nat) (J g : R) (HL : 1 <= L) :
  exists H, BuildHNk L k J g = Some H /\
    forall a b, entry H b a = Cconj (entry H a b).
Proof.
  destruct (entry_formula L HL k J g) as (H & E1 & _ & _ & EF & _).
  exists H. split; [exact E1|]. intros a b. rewrite !EF.
  rewrite (andb_comm (Nat.ltb b _)).
  destruct (Nat.ltb_spec a (length (sector_basis L k))) as [Ha|Ha];
  destruct (Nat.ltb_spec b (length (sector_basis L k))) as [Hb|Hb]; simpl;
    try (symmetry; apply Cconj_C0).
  destruct (In_nth_sector_basis L HL k a Ha) as (Va & Ra & Ka).
  destruct (In_nth_sector_basis L HL k b Hb) as (Vb & Rb & Kb).
  rewrite Cconj_add. f_equal.
  - apply flip_part_herm; auto.
  - rewrite Nat.eqb_sym. destruct (Nat.eqb_spec a b) as [<-|]; [|symmetry; apply Cconj_C0].
    apply C_ext; simpl; lra.
Qed.

Lemma BuildHNk_hermitian_witness :
  1 <= 2 /\ exists H, BuildHNk 2 0 1 1 = Some H /\
    forall a b, entry H b a = Cconj (entry H a b).
Proof. split; [lia | apply (BuildHNk_hermitian 2 0 1 1); lia]. Defined.

(** C2: for [L >= 1], [BuildBasisNk L k] succeeds for every [k] in [0, L),
    and the lengths of the [L] sector bases add up to [2^L]. *)
Theorem sector_sizes_partition (L : nat) (HL : 1 <= L) :
  (forall k, k < L -> BuildBasisNk L k <> None) /\
  list_sum (map (fun k => match BuildBasisNk L k with Some b => length b | None => 0 end)
                (seq 0 L)) = 2 ^ L.
Proof.
  split.
  - intros k _. rewrite (BuildBasisNk_filter L HL k). discriminate.
  - rewrite <- (sector_sizes L HL). apply nsum_ext_in. intros k _.
    rewrite (BuildBasisNk_filter L HL k). reflexivity.
Qed.

Lemma sector_sizes_partition_witness :
  1 <= 3 /\ (forall k, k < 3 -> BuildBasisNk 3 k <> None) /\
  list_sum (map (fun k => match BuildBasisNk 3 k with Some b => length b | None => 0 end)
                (seq 0 3)) = 2 ^ 3.
Proof. split; [lia | apply (sector_sizes_partition 3); lia]. Defined.

(** C5: [ActingH n L J g] has [L + 1] pairs: at position [i < L] the flip
    [(n ^ (1 << i), -J*g)], and last the diagonal pair [(n, diagSum n L J)],
    where [diagSum] adds [-J] for every bond [(i, (i+1) mod L)] whose two
    bits agree and [+J] for every bond whose bits differ. *)
Theorem ActingH_pairs (n : Z) (L : nat) (J g : R) :
  length (ActingH n L J g) = L + 1 /\
  (forall i, i < L -> nth_error (ActingH n L J g) i = Some (FilpBit n i, (- J * g)%R)) /\
  nth_error (ActingH n L J g) L = Some (n, diagSum n L J).
Proof.
  rewrite ActingH_eq. split; [|split].
  - rewrite length_app, length_map, length_seq. reflexivity.
  - intros i Hi. rewrite nth_error_app1 by (rewrite length_map, length_seq; auto).
    rewrite nth_error_map_seq. replace (i <? L) with true by (symmetry; apply Nat.ltb_lt; auto).
    reflexivity.
  - rewrite nth_error_app2 by (rewrite length_map, length_seq; auto).
    rewrite length_map, length_seq, Nat.sub_diag. reflexivity.
Qed.



(** C8: for [L >= 1] and [g = 0], every entry of the sector matrix off the
    diagonal is zero and the diagonal entry of basis state [n] is the real
    classical Ising energy [diagSum n L J]. *)
Theorem BuildHNk_g0_diagonal (L k : nat) (J : R) (HL : 1 <= L) :
  exists H, BuildHNk L k J 0 = Some H /\
    (forall a b, a <> b -> entry H b a = C0) /\
    (forall b, b < H_dim H -> entry H b b = mkC (diagSum (nth b (H_basis H) 0%Z) L J) 0).
Proof.
  destruct (entry_formula L HL k J 0) as (H & E1 & E2 & E3 & EF & _).
  exists H. split; [exact E1|]. rewrite E2, E3. split.
  - intros a b Hab. rewrite EF. rewrite flip_part_g0.
    replace (Nat.eqb b a) with false by (symmetry; apply Nat.eqb_neq; auto).
    rewrite Cadd_0_r. destruct (_ && _); reflexivity.
  - intros b Hb. rewrite EF, flip_part_g0, Nat.eqb_refl, Cadd_0_l.
    replace (Nat.ltb b (length (sector_basis L k))) with true
      by (symmetry; apply Nat.ltb_lt; auto).
    reflexivity.
Qed.

Lemma BuildHNk_g0_diagonal_witness :
  1 <= 2 /\ exists H, BuildHNk 2 0 1 0 = Some H /\
    (forall a b, a <> b -> entry H b a = C0) /\
    (forall b, b < H_dim H -> entry H b b = mkC (diagSum (nth b (H_basis H) 0%Z) 2 1) 0).
Proof. split; [lia | apply (BuildHNk_g0_diagonal 2 0 1); lia]. Defined.

(** C9: for [L >= 1], every basis index [b] has exactly one accumulated
    triplet with row [b] and column [b]; its value is the real number
    [diagSum n L J] of the basis state [n]; and no flip of [n] has [n] as its
    representative, so no flip term reaches the diagonal. *)
Theorem BuildHNk_diagonal_triplet (L k : nat) (J g : R) (HL : 1 <= L) :
  exists H, BuildHNk L k J g = Some H /\
    forall b, b < H_dim H ->
      (exists p, nth_error (H_row H) p = Some b /\ nth_error (H_col H) p = Some b /\
                 nth_error (H_val H) p = Some (mkC (diagSum (nth b (H_basis H) 0%Z) L J) 0) /\
                 (forall q, nth_error (H_row H) q = Some b -> nth_error (H_col H) q = Some b ->
                            q = p)) /\
      (forall i, i < L ->
         list_min (Tlist L (FilpBit (nth b (H_basis H) 0%Z) i)) <> Some (nth b (H_basis H) 0%Z)).
Proof.
  destruct (entry_formula L HL k J g) as (H & E1 & E2 & E3 & EF & T & Lc & Lr & U).
  exists H. split; [exact E1|]. rewrite E2, E3. intros b Hb.
  destruct (In_nth_sector_basis L HL k b Hb) as (Vb & Rb & Kb).
  set (n := nth b (sector_basis L k) 0%Z) in *.
  split.
  - destruct (T b Hb) as [p [Hc Hr]].
    assert (Hp : p < length (H_val H)) by (rewrite <- Lc; eapply nth_error_some_lt; eauto).
    destruct (nth_error (H_val H) p) as [v|] eqn:Hv; [|apply nth_error_None in Hv; lia].
    exists p. split; [exact Hr|]. split; [exact Hc|]. split.
    + f_equal.
      assert (Hq : forall q, nth_error (H_row H) q = Some b -> nth_error (H_col H) q = Some b -> q = p)
        by (intros q Hq1 Hq2; apply (U q p b b); auto).
      rewrite Hv. f_equal. rewrite <- (coo_entry_unique (H_row H) (H_col H) (H_val H) p b b v Hr Hc Hv Hq).
      change (coo_entry (H_row H) (H_col H) (H_val H) b b) with (entry H b b).
      rewrite EF, Nat.eqb_refl. fold n.
      replace (Nat.ltb b (length (sector_basis L k))) with true
        by (symmetry; apply Nat.ltb_lt; auto).
      simpl. rewrite flip_part_self, Cadd_0_l by auto. reflexivity.
    + intros q Hq1 Hq2. apply (U q p b b); auto.
  - intros i Hi E.
    assert (Hf : valid L (FilpBit n i)) by (apply valid_FilpBit; auto).
    rewrite (proj1 (rep_spec L HL _ Hf)) in E. injection E as E.
    apply (rep_FilpBit_neq L HL n i Vb Hi E).
Qed.

Lemma BuildHNk_diagonal_triplet_witness :
  1 <= 2 /\ exists H, BuildHNk 2 1 1 1 = Some H /\
    forall b, b < H_dim H ->
      (exists p, nth_error (H_row H) p = Some b /\ nth_error (H_col H) p = Some b /\
                 nth_error (H_val H) p = Some (mkC (diagSum (nth b (H_basis H) 0%Z) 2 1) 0) /\
                 (forall q, nth_error (H_row H) q = Some b -> nth_error (H_col H) q = Some b ->
                            q = p)) /\
      (forall i, i < 2 ->
         list_min (Tlist 2 (FilpBit (nth b (H_basis H) 0%Z) i)) <> Some (nth b (H_basis H) 0%Z)).
Proof. split; [lia | apply (BuildHNk_diagonal_triplet 2 1 1 1); lia]. Defined.

(** * Further properties of the notebook's functions *)

(** X1: [ReadBit i n] is 1 when bit [n] of [i] is set and 0 otherwise, for
    every integer [i] (a negative one read in two's complement). *)
Theorem ReadBit_is_bit (i : Z) (n : nat) :
  ReadBit i n = (if Z.testbit i (Z.of_nat n) then 1 else 0)%Z.
Proof. rewrite ReadBit_b2z. destruct (Z.testbit i (Z.of_nat n)); reflexivity. Qed.

(** X2: for [k >= 0] and [n >= 0], [PickBit i k n] is the [n]-bit field of
    [i] that starts at bit [k]: [(i / 2^k) mod 2^n], so it lies in [0, 2^n). *)
Theorem PickBit_field (i k n : Z) (Hk : (0 <= k)%Z) (Hn : (0 <= n)%Z) :
  PickBit i k n = ((i / 2 ^ k) mod 2 ^ n)%Z /\ (0 <= PickBit i k n < 2 ^ n)%Z.
Proof.
  assert (E : PickBit i k n = ((i / 2 ^ k) mod 2 ^ n)%Z).
  { apply Z.bits_inj'. intros j Hj. unfold PickBit.
    rewrite Z.shiftr_spec, Z.land_spec, Z.shiftl_spec by lia.
    replace (j + k - k)%Z with j by lia.
    replace (2 ^ n - 1)%Z with (Z.ones n) by (rewrite Z.ones_equiv; lia).
    rewrite Z.testbit_ones_nonneg by lia.
    rewrite <- Z.shiftr_div_pow2 by lia.
    destruct (Z_lt_le_dec j n).
    - rewrite Z.mod_pow2_bits_low, Z.shiftr_spec by lia.
      replace (j <? n)%Z with true by (symmetry; apply Z.ltb_lt; lia).
      rewrite andb_true_r. reflexivity.
    - rewrite Z.mod_pow2_bits_high by lia.
      replace (j <? n)%Z with false by (symmetry; apply Z.ltb_ge; lia).
      apply andb_false_r. }
  split; [exact E|]. rewrite E. apply Z.mod_pos_bound. apply Z.pow_pos_nonneg; lia.
Qed.

Lemma PickBit_field_witness :
  ((0 <= 1)%Z /\ (0 <= 2)%Z) /\
  PickBit 13 1 2 = ((13 / 2 ^ 1) mod 2 ^ 2)%Z /\ (0 <= PickBit 13 1 2 < 2 ^ 2)%Z.
Proof. split; [lia | apply (PickBit_field 13 1 2); lia]. Defined.

(** X3: [FilpBit i n] changes bit [n] of [i] and no other bit, and flipping
    the same bit twice gives [i] back. *)
Theorem FilpBit_toggle (i : Z) (n : nat) :
  FilpBit (FilpBit i n) n = i /\
  forall j, Z.testbit (FilpBit i n) j = xorb (Z.testbit i j) (j =? Z.of_nat n)%Z.
Proof.
  split.
  - unfold FilpBit. rewrite Z.lxor_assoc, Z.lxor_nilpotent, Z.lxor_0_r. reflexivity.
  - intros j. destruct (Z_lt_le_dec j 0).
    + rewrite !Z.testbit_neg_r by lia.
      replace (j =? Z.of_nat n)%Z with false by (symmetry; apply Z.eqb_neq; lia). reflexivity.
    + apply FilpBit_bits. lia.
Qed.

(** X4: flipping a bit [n < L] of an [L]-bit state gives an [L]-bit state
    whose [CountBit] is one less when the bit was set and one more when it
    was clear. *)
Theorem FilpBit_CountBit (L n : nat) (i : Z) (Hi : (0 <= i < 2 ^ Z.of_nat L)%Z) (Hn : n < L) :
  (0 <= FilpBit i n < 2 ^ Z.of_nat L)%Z /\
  CountBit (FilpBit i n)
  = if Z.testbit i (Z.of_nat n) then CountBit i - 1 else CountBit i + 1.
Proof.
  assert (Hv : valid L i) by exact Hi.
  assert (Hf : valid L (FilpBit i n)) by (apply valid_FilpBit; auto; lia).
  split; [exact Hf|].
  rewrite !(CountBit_popL L) by auto. apply popL_FilpBit_eq. auto.
Qed.

Lemma FilpBit_CountBit_witness :
  ((0 <= 5 < 2 ^ Z.of_nat 4)%Z /\ 2 < 4) /\
  (0 <= FilpBit 5 2 < 2 ^ Z.of_nat 4)%Z /\
  CountBit (FilpBit 5 2) = if Z.testbit 5 (Z.of_nat 2) then CountBit 5 - 1 else CountBit 5 + 1.
Proof.
  split; [split; [vm_compute; split; congruence | lia]|].
  apply (FilpBit_CountBit 4 2 5); [vm_compute; split; congruence | lia].
Defined.

(** X5: [CountBit i] counts the set bits of the magnitude of [i]: the
    sign character that [np.binary_repr] puts before a negative number is
    not counted, so [CountBit (-i) = CountBit i]. *)
Theorem CountBit_magnitude (L : nat) (i : Z) (Hi : (Z.abs i < 2 ^ Z.of_nat L)%Z) :
  CountBit i = popL L (Z.abs i) /\ CountBit (- i) = CountBit i.
Proof.
  split.
  - rewrite CountBit_Zabs. apply CountBit_popL. unfold valid. lia.
  - rewrite (CountBit_Zabs (- i)), (CountBit_Zabs i), Z.abs_opp. reflexivity.
Qed.

Lemma CountBit_magnitude_witness :
  (Z.abs (-6) < 2 ^ Z.of_nat 3)%Z /\
  CountBit (-6) = popL 3 (Z.abs (-6)) /\ CountBit (- (-6)) = CountBit (-6).
Proof.
  split; [vm_compute; reflexivity|].
  apply (CountBit_magnitude 3 (-6)). vm_compute. reflexivity.
Defined.

(** X6: for [L >= 1], an [L]-bit state [x] and [s <= L], bit [j] of
    [RotLBit x L s] is bit [(j - s) mod L] of [x] for [j < L] and 0 above:
    [RotLBit] is a cyclic left rotation of the [L] low bits. *)
Theorem RotLBit_bit_formula (L s : nat) (x : Z) (HL : 1 <= L) (Hs : s <= L)
    (Hx : (0 <= x < 2 ^ Z.of_nat L)%Z) :
  forall j, (0 <= j)%Z ->
  Z.testbit (RotLBit x L s) j
  = ((j <? Z.of_nat L) && Z.testbit x ((j - Z.of_nat s) mod Z.of_nat L))%Z.
Proof. intros j Hj. apply RotLBit_bits; auto. Qed.

Lemma RotLBit_bit_formula_witness :
  (1 <= 4 /\ 1 <= 4 /\ (0 <= 9 < 2 ^ Z.of_nat 4)%Z) /\
  forall j, (0 <= j)%Z ->
  Z.testbit (RotLBit 9 4 1) j
  = ((j <? Z.of_nat 4) && Z.testbit 9 ((j - Z.of_nat 1) mod Z.of_nat 4))%Z.
Proof.
  split; [split; [lia | split; [lia | vm_compute; split; congruence]]|].
  apply (RotLBit_bit_formula 4 1 9); [lia | lia | vm_compute; split; congruence].
Defined.

(** X7: on [L]-bit states, rotations compose additively modulo [L]:
    rotating by [s] and then by [t] (both at most [L]) is rotating by
    [(s + t) mod L]; rotating by 0 or by [L] changes nothing. *)
Theorem RotLBit_compose (L s t : nat) (x : Z) (Hs : s <= L) (Ht : t <= L)
    (Hx : (0 <= x < 2 ^ Z.of_nat L)%Z) :
  RotLBit (RotLBit x L s) L t = RotLBit x L ((s + t) mod L) /\
  RotLBit x L 0 = x /\ RotLBit x L L = x.
Proof.
  assert (Hv : valid L x) by exact Hx.
  destruct L as [|L'].
  - apply valid_zero in Hv as ->. assert (s = 0) as -> by lia.
    assert (t = 0) as -> by lia. repeat split; reflexivity.
  - assert (HL : 1 <= S L') by lia.
    assert (Hm : (s + t) mod S L' < S L') by (apply Nat.mod_upper_bound; lia).
    rewrite (RotLBit_rotN _ HL x s), (RotLBit_rotN _ HL x ((s + t) mod S L')) by (auto; lia).
    rewrite RotLBit_rotN by (auto using valid_rotN).
    rewrite rotN_add, <- rotN_mod by auto.
    rewrite (RotLBit_rotN _ HL x 0), (RotLBit_rotN _ HL x (S L')) by (auto; lia).
    split; [reflexivity|]. split; [apply rotN_0 | apply rotN_L]; auto.
Qed.

Lemma RotLBit_compose_witness :
  (3 <= 4 /\ 2 <= 4 /\ (0 <= 6 < 2 ^ Z.of_nat 4)%Z) /\
  RotLBit (RotLBit 6 4 3) 4 2 = RotLBit 6 4 ((3 + 2) mod 4) /\
  RotLBit 6 4 0 = 6%Z /\ RotLBit 6 4 4 = 6%Z.
Proof.
  split; [split; [lia | split; [lia | vm_compute; split; congruence]]|].
  apply (RotLBit_compose 4 3 2 6); [lia | lia | vm_compute; split; congruence].
Defined.

(** X8: for an [L]-bit state [x] and [s <= L], [RotRBit x L s] is the left
    rotation by [L - s], is again an [L]-bit state, and rotating it left by
    [s] gives [x] back. *)
Theorem RotRBit_inverse (L s : nat) (x : Z) (Hs : s <= L)
    (Hx : (0 <= x < 2 ^ Z.of_nat L)%Z) :
  RotRBit x L s = RotLBit x L (L - s) /\
  (0 <= RotRBit x L s < 2 ^ Z.of_nat L)%Z /\
  RotLBit (RotRBit x L s) L s = x.
Proof.
  assert (Hv : valid L x) by exact Hx.
  rewrite RotRBit_as_RotLBit by auto.
  destruct L as [|L'].
  - apply valid_zero in Hv as ->. assert (s = 0) as -> by lia.
    split; [reflexivity|]. split; [vm_compute; split; congruence | reflexivity].
  - assert (HL : 1 <= S L') by lia.
    split; [reflexivity|]. split.
    + apply valid_RotLBit; auto; lia.
    + rewrite (RotLBit_rotN _ HL x) by (auto; lia).
      rewrite RotLBit_rotN by (auto using valid_rotN).
      rewrite rotN_add by auto. replace (S L' - s + s) with (S L') by lia.
      apply rotN_L; auto.
Qed.

Lemma RotRBit_inverse_witness :
  (1 <= 4 /\ (0 <= 6 < 2 ^ Z.of_nat 4)%Z) /\
  RotRBit 6 4 1 = RotLBit 6 4 (4 - 1) /\
  (0 <= RotRBit 6 4 1 < 2 ^ Z.of_nat 4)%Z /\
  RotLBit (RotRBit 6 4 1) 4 1 = 6%Z.
Proof.
  split; [split; [lia | vm_compute; split; congruence]|].
  apply (RotRBit_inverse 4 1 6); [lia | vm_compute; split; congruence].
Defined.

(** X9: [ActingH] commutes with translations: for [L >= 1], an [L]-bit
    state [n] and [s <= L], the pairs of [ActingH (RotLBit n L s)] are those
    of [ActingH n] with each state rotated by [s] and the same amplitude, up
    to order (in particular the diagonal energy is unchanged). *)
Theorem ActingH_translation (n : Z) (L s : nat) (J g : R) (HL : 1 <= L)
    (Hs : s <= L) (Hn : (0 <= n < 2 ^ Z.of_nat L)%Z) :
  Permutation (ActingH (RotLBit n L s) L J g)
              (map (fun mh => (RotLBit (fst mh) L s, snd mh)) (ActingH n L J g)).
Proof.
  assert (Hv : valid L n) by exact Hn.
  rewrite (map_ext_in _ (fun mh => (rotN L (fst mh) s, snd mh))).
  2:{ intros mh Hmh. rewrite RotLBit_rotN; auto. apply (valid_ActingH n L J g mh); auto. }
  rewrite RotLBit_rotN by auto.
  rewrite !ActingH_eq, map_app, map_map. simpl.
  rewrite diagSum_rotN by auto.
  apply Permutation_app_tail. symmetry.
  rewrite (map_ext_in _ (fun i => (FilpBit (rotN L n s) ((i + s) mod L), (- J * g)%R))).
  2:{ intros i Hi. apply in_seq in Hi. cbn. rewrite rotN_FilpBit by (auto; lia). reflexivity. }
  rewrite <- (map_map (fun i => (i + s) mod L) (fun i => (FilpBit (rotN L n s) i, (- J * g)%R))).
  apply Permutation_map, Permutation_map_seq.
  - intros x Hx. apply Nat.mod_upper_bound. lia.
  - intros x y Hx Hy E. apply (shift_mod_inj L s); auto.
Qed.

Lemma ActingH_translation_witness :
  (1 <= 4 /\ 1 <= 4 /\ (0 <= 6 < 2 ^ Z.of_nat 4)%Z) /\
  Permutation (ActingH (RotLBit 6 4 1) 4 1 1)
              (map (fun mh => (RotLBit (fst mh) 4 1, snd mh)) (ActingH 6 4 1 1)).
Proof.
  split; [split; [lia | split; [lia | vm_compute; split; congruence]]|].
  apply (ActingH_translation 6 4 1 1 1); [lia | lia | vm_compute; split; congruence].
Defined.

(** X10: [ActingH] commutes with the flip of all [L] spins: the pairs of
    [ActingH] for [n ^ (2^L - 1)] are those for [n] with every state
    flipped the same way and the same amplitudes, in the same order. *)
Theorem ActingH_spin_flip (n : Z) (L : nat) (J g : R) :
  ActingH (Z.lxor n (2 ^ Z.of_nat L - 1)) L J g
  = map (fun mh => (Z.lxor (fst mh) (2 ^ Z.of_nat L - 1), snd mh)) (ActingH n L J g).
Proof.
  rewrite !ActingH_eq, map_app, map_map. simpl.
  rewrite diagSum_complement. f_equal.
  apply map_ext. intros i. unfold FilpBit. f_equal.
  rewrite !Z.lxor_assoc. f_equal. apply Z.lxor_comm.
Qed.

(** X11: the sector basis depends on the momentum only modulo [L]:
    [BuildBasisNk L (k + L) = BuildBasisNk L k]. *)
Theorem BuildBasisNk_momentum_period (L k : nat) :
  BuildBasisNk L (k + L) = BuildBasisNk L k.
Proof.
  destruct L as [|L']; [rewrite Nat.add_0_r; reflexivity|].
  rewrite !(BuildBasisNk_filter (S L') ltac:(lia)). f_equal.
  apply filter_ext. intros n. unfold in_sector. f_equal. f_equal.
  replace ((k + S L') * period (S L') n) with (k * period (S L') n + period (S L') n * S L') by lia.
  apply Nat.Div0.mod_add.
Qed.

(** X12: for [L >= 1], the [k = 0] basis holds exactly the [L]-bit states
    that are the minimum of their rotation list [Tlist]; it contains the
    representative [min(Tlist)] of every [L]-bit state, and every other
    sector basis is a sub-list of it. *)
Theorem BuildBasisNk_zero_sector (L : nat) (HL : 1 <= L) :
  exists b0, BuildBasisNk L 0 = Some b0 /\
    (forall n, In n b0 <-> (0 <= n < 2 ^ Z.of_nat L)%Z /\ list_min (Tlist L n) = Some n) /\
    (forall n, (0 <= n < 2 ^ Z.of_nat L)%Z ->
       exists r, list_min (Tlist L n) = Some r /\ In r b0) /\
    (forall k bk, BuildBasisNk L k = Some bk -> incl bk b0).
Proof.
  exists (filter (in_sector L 0) (BuildBasisN L)).
  split; [apply BuildBasisNk_filter; auto|].
  assert (H0 : forall n, In n (filter (in_sector L 0) (BuildBasisN L)) <->
                         valid L n /\ rep L n = n).
  { intros n. rewrite In_basis by auto. simpl. rewrite Nat.Div0.mod_0_l. tauto. }
  split; [|split].
  - intros n. rewrite H0. split.
    + intros [Hn E]. split; [exact Hn|]. apply list_min_rep; auto.
    + intros [Hn E]. split; [exact Hn|]. apply list_min_rep; auto.
  - intros n Hn. exists (rep L n). split; [apply rep_spec; auto|].
    apply H0. split; [apply valid_rep; auto|]. apply rep_rep; auto.
  - intros k bk E n Hin. destruct L as [|L']; [lia|].
    rewrite BuildBasisNk_filter in E by auto. injection E as <-.
    apply In_basis in Hin as (Hn & Hr & _); auto. apply H0. auto.
Qed.

Lemma BuildBasisNk_zero_sector_witness :
  1 <= 3 /\
  exists b0, BuildBasisNk 3 0 = Some b0 /\
    (forall n, In n b0 <-> (0 <= n < 2 ^ Z.of_nat 3)%Z /\ list_min (Tlist 3 n) = Some n) /\
    (forall n, (0 <= n < 2 ^ Z.of_nat 3)%Z ->
       exists r, list_min (Tlist 3 n) = Some r /\ In r b0) /\
    (forall k bk, BuildBasisNk 3 k = Some bk -> incl bk b0).
Proof. split; [lia | apply (BuildBasisNk_zero_sector 3); lia]. Defined.

(** X13: for [L >= 1], a representative [n] (an [L]-bit state equal to
    [min(Tlist)]) appears in exactly [R] of the [L] sector bases
    [k = 0 .. L-1], where [R = Tlist[1:].index(n) + 1] is its period, and
    [R] divides [L]. *)
Theorem representative_momenta (L : nat) (n : Z) (HL : 1 <= L)
    (Hn : (0 <= n < 2 ^ Z.of_nat L)%Z) (Hr : list_min (Tlist L n) = Some n) :
  length (filter (fun k => match BuildBasisNk L k with
                           | Some b => existsb (Z.eqb n) b | None => false end) (seq 0 L))
  = period L n /\ Nat.divide (period L n) L.
Proof.
  assert (Hv : valid L n) by exact Hn.
  apply list_min_rep in Hr; auto.
  assert (Hd : Nat.divide (period L n) L)
    by (apply (period_divides_L L HL n); auto; apply period_spec; auto).
  split; [|exact Hd].
  rewrite (filter_ext_in _ (fun k => Nat.eqb ((k * period L n) mod L) 0)).
  - apply count_momenta; auto. apply period_pos; auto.
  - intros k _. rewrite BuildBasisNk_filter by auto.
    apply eq_true_iff_eq. rewrite existsb_eqb_In, In_basis, Nat.eqb_eq by auto. tauto.
Qed.

Lemma representative_momenta_witness :
  (1 <= 4 /\ (0 <= 5 < 2 ^ Z.of_nat 4)%Z /\ list_min (Tlist 4 5) = Some 5%Z) /\
  length (filter (fun k => match BuildBasisNk 4 k with
                           | Some b => existsb (Z.eqb 5) b | None => false end) (seq 0 4))
  = period 4 5 /\ Nat.divide (period 4 5) 4.
Proof.
  split; [split; [lia | split; [vm_compute; split; congruence | vm_compute; reflexivity]]|].
  apply (representative_momenta 4 5); [lia | vm_compute; split; congruence | vm_compute; reflexivity].
Defined.

(** X14: for [L >= 1], [BuildHNk L k J g] returns the basis of
    [BuildBasisNk L k] and its length; its three triplet lists have one
    length, every column and row index is below that length (so the
    triplets fit the [(C, C)] matrix), and no two triplets share a
    (column, row) pair. *)
Theorem BuildHNk_triplet_structure (L k : nat) (J g : R) (HL : 1 <= L) :
  exists H, BuildHNk L k J g = Some H /\
    BuildBasisNk L k = Some (H_basis H) /\ H_dim H = length (H_basis H) /\
    length (H_col H) = length (H_val H) /\ length (H_row H) = length (H_val H) /\
    Forall (fun a => a < H_dim H) (H_col H) /\ Forall (fun b => b < H_dim H) (H_row H) /\
    (forall p q a b, nth_error (H_col H) p = Some a -> nth_error (H_row H) p = Some b ->
       nth_error (H_col H) q = Some a -> nth_error (H_row H) q = Some b -> p = q).
Proof.
  destruct (BuildHNk_spec L HL k J g) as (H & E & Eb & D & _ & _ & Lc & Lr & U).
  destruct (BuildHNk_bounded L k J g H E) as [Bc Br].
  exists H. split; [exact E|].
  split; [rewrite Eb; apply BuildBasisNk_filter; auto|].
  split; [rewrite D, Eb; reflexivity|]. auto.
Qed.

Lemma BuildHNk_triplet_structure_witness :
  1 <= 3 /\
  exists H, BuildHNk 3 1 1 1 = Some H /\
    BuildBasisNk 3 1 = Some (H_basis H) /\ H_dim H = length (H_basis H) /\
    length (H_col H) = length (H_val H) /\ length (H_row H) = length (H_val H) /\
    Forall (fun a => a < H_dim H) (H_col H) /\ Forall (fun b => b < H_dim H) (H_row H) /\
    (forall p q a b, nth_error (H_col H) p = Some a -> nth_error (H_row H) p = Some b ->
       nth_error (H_col H) q = Some a -> nth_error (H_row H) q = Some b -> p = q).
Proof. split; [lia | apply (BuildHNk_triplet_structure 3 1 1 1); lia]. Defined.

(** X15: for [L >= 1] and a momentum with [(2 * k) mod L = 0] (the sectors
    [k = 0] and, for even [L], [k = L/2]), every phase
    [np.exp(1j*k*d*2*pi/L)] is real, so every value [BuildHNk] stores has
    imaginary part 0. *)
Theorem BuildHNk_real_sector (L k : nat) (J g : R) (HL : 1 <= L) (Hk : (2 * k) mod L = 0) :
  exists H, BuildHNk L k J g = Some H /\ Forall (fun v => Im v = 0%R) (H_val H).
Proof.
  destruct (BuildHNk_spec L HL k J g) as (H & E & _).
  exists H. split; [exact E|]. apply (BuildHNk_real_values L k J g H); auto.
Qed.

Lemma BuildHNk_real_sector_witness :
  (1 <= 4 /\ (2 * 2) mod 4 = 0) /\
  exists H, BuildHNk 4 2 1 1 = Some H /\ Forall (fun v => Im v = 0%R) (H_val H).
Proof.
  split; [split; [lia | reflexivity]|].
  apply (BuildHNk_real_sector 4 2 1 1); [lia | reflexivity].
Defined.

(** X16: for [L >= 1], the loop of [Task] over [k = 0 .. L-1] succeeds;
    the final [count], the shape of the assembled matrix, is [2^L]; the
    lists [Hx], [Hy], [Hn] have one length, and every row index in [Hx]
    and column index in [Hy] is below [count]. *)
Theorem Task_shape (L : nat) (J g : R) (HL : 1 <= L) :
  exists t, Task_lists L J g = Some t /\ count t = 2 ^ L /\
    length (Hx t) = length (Hn t) /\ length (Hy t) = length (Hn t) /\
    Forall (fun x => x < count t) (Hx t) /\ Forall (fun y => y < count t) (Hy t).
Proof.
  destruct (Task_loop L HL J g L) as (t & E & Ec & Lx & Ly & Bx & By & _).
  exists t. split; [exact E|]. split; [|auto].
  rewrite Ec. unfold Task_offset. rewrite <- (sector_sizes L HL).
  apply nsum_ext_in. intros j _. apply Task_dim_eq; auto.
Qed.

Lemma Task_shape_witness :
  1 <= 3 /\
  exists t, Task_lists 3 1 1 = Some t /\ count t = 2 ^ 3 /\
    length (Hx t) = length (Hn t) /\ length (Hy t) = length (Hn t) /\
    Forall (fun x => x < count t) (Hx t) /\ Forall (fun y => y < count t) (Hy t).
Proof. split; [lia | apply (Task_shape 3 1 1); lia]. Defined.

(** X17: for [L >= 1], the matrix [coo_matrix((Hn, (Hx, Hy)))] that [Task]
    assembles is Hermitian in exact arithmetic: its entry at row [y],
    column [x] is the conjugate of its entry at row [x], column [y]. *)
Theorem Task_hermitian (L : nat) (J g : R) (HL : 1 <= L) :
  exists t, Task_lists L J g = Some t /\
    forall x y, Ham_entry t y x = Cconj (Ham_entry t x y).
Proof.
  destruct (Task_loop L HL J g L) as (t & E & _ & _ & _ & _ & _ & Et).
  exists t. split; [exact E|]. intros x y. rewrite !Et. unfold Task_sum.
  rewrite Cconj_Csum, map_map. f_equal. apply map_ext. intros j.
  rewrite andb_comm. destruct (_ && _); [apply Task_block_herm; auto | symmetry; apply Cconj_C0].
Qed.

Lemma Task_hermitian_witness :
  1 <= 2 /\
  exists t, Task_lists 2 1 1 = Some t /\
    forall x y, Ham_entry t y x = Cconj (Ham_entry t x y).
Proof. split; [lia | apply (Task_hermitian 2 1 1); lia]. Defined.

(** X18: for [L >= 1], the matrix [Task] assembles is block diagonal:
    sector [k] occupies the rows and columns from the [count] before step
    [k] ([Task_offset k]) up to the [count] after it, where it holds the
    transpose of the matrix of [BuildHNk L k J g] (the sector's column list
    becomes [Hx], the row indices); every entry outside these blocks is
    zero. *)
Theorem Task_block_diagonal (L : nat) (J g : R) (HL : 1 <= L) :
  exists t, Task_lists L J g = Some t /\
    (forall k H, k < L -> BuildHNk L k J g = Some H ->
       forall r c, r < H_dim H -> c < H_dim H ->
       Ham_entry t (Task_offset L J g k + c) (Task_offset L J g k + r) = entry H r c) /\
    (forall x y, (forall k, k < L ->
        ~ (Task_offset L J g k <= x < Task_offset L J g (S k) /\
           Task_offset L J g k <= y < Task_offset L J g (S k))) ->
       Ham_entry t x y = C0).
Proof.
  destruct (Task_loop L HL J g L) as (t & E & _ & _ & _ & _ & _ & Et).
  exists t. split; [exact E|]. split.
  - intros k H Hk EH r c Hr Hc. rewrite Et. unfold Task_sum.
    assert (Hdk : Task_dim L J g k = H_dim H) by (unfold Task_dim; rewrite EH; reflexivity).
    apply Csum_indicator with (k := k); auto.
    + intros j Hj Hne. destruct (Nat.lt_ge_cases j k) as [Hlt|Hge].
      * assert (Ho : Task_offset L J g (S j) <= Task_offset L J g k)
          by (apply Task_offset_mono; auto).
        rewrite Task_offset_S in Ho.
        destruct (_ && _); auto. apply (Task_block_out L HL). intros [H1 _]. lia.
      * assert (Ho : Task_offset L J g (S k) <= Task_offset L J g j)
          by (apply Task_offset_mono; auto; lia).
        rewrite Task_offset_S in Ho.
        replace (Nat.leb (Task_offset L J g j) (Task_offset L J g k + c)) with false
          by (symmetry; apply Nat.leb_gt; lia). reflexivity.
    +       replace (Nat.leb (Task_offset L J g k) (Task_offset L J g k + c)) with true
        by (symmetry; apply Nat.leb_le; lia).
      replace (Nat.leb (Task_offset L J g k) (Task_offset L J g k + r)) with true
        by (symmetry; apply Nat.leb_le; lia).
      unfold Task_block. rewrite EH. simpl. f_equal; lia.
  - intros x y Hout. rewrite Et. unfold Task_sum. apply Csum_zero.
    intros j Hj. apply in_seq in Hj.
    destruct (Nat.leb_spec (Task_offset L J g j) x), (Nat.leb_spec (Task_offset L J g j) y);
      simpl; auto.
    apply (Task_block_out L HL). intros [H1 H2]. apply (Hout j); [lia|].
    rewrite Task_offset_S. lia.
Qed.

Lemma Task_block_diagonal_witness :
  1 <= 2 /\
  exists t, Task_lists 2 1 1 = Some t /\
    (forall k H, k < 2 -> BuildHNk 2 k 1 1 = Some H ->
       forall r c, r < H_dim H -> c < H_dim H ->
       Ham_entry t (Task_offset 2 1 1 k + c) (Task_offset 2 1 1 k + r) = entry H r c) /\
    (forall x y, (forall k, k < 2 ->
        ~ (Task_offset 2 1 1 k <= x < Task_offset 2 1 1 (S k) /\
           Task_offset 2 1 1 k <= y < Task_offset 2 1 1 (S k))) ->
       Ham_entry t x y = C0).
Proof. split; [lia | apply (Task_block_diagonal 2 1 1); lia]. Defined.
